(** * High-contention counter over a transactional ordered key-value store

    A shallow embedding of [lib/counter.py]: the [Counter] class with its
    sharded representation, the two read paths, [add], [set_total] and the
    background [_coalesce] pass, together with the parts of the FoundationDB
    client the class calls: the tuple layer, subspaces and transactions.

    - Byte strings are lists of bytes, Python integers are [Z].
    - Code that may raise returns a [result]; code that also acts on the
      store or draws random data runs in the monad [M] over a [World], which
      holds the database, the transaction objects, the commits under way and
      the answers of the environment (random bytes, random floats, failures
      of store calls).
    - The methods decorated with [@fdb.transactional] are modelled by their
      bodies, run in the transaction they are given: that is what the
      decorator does when it is passed a transaction, and [set_total] calls
      [get_snapshot] and [add] that way. *)

From Stdlib Require Import ZArith Lia List Strings.Byte QArith.
From stdpp Require Import sorting.
From stdpp Require Import base option list countable gmap.

Open Scope Z_scope.

(** ** Byte strings *)

(** Python 2 [str] values / store keys and values: finite byte sequences. *)
Abbreviation bytes := (list byte).

#[global] Instance byte_eq_dec : EqDecision byte := Byte.byte_eq_dec.

#[global] Instance byte_countable : Countable byte :=
  inj_countable Byte.to_N Byte.of_N Byte.of_to_N.

(** [ord]: the code of a byte, as an integer in 0..255. *)
Definition ord (b : byte) : Z := Z.of_N (Byte.to_N b).

(** [chr] / [six.int2byte]: the byte with a given code.  The code below
    only applies it to codes in 0..255. *)
Definition int2byte (z : Z) : byte :=
  default x00 (Byte.of_N (Z.to_N z)).

(** ** Exceptions and results *)

(** The exceptions that can surface in the counter: the store client's own
    [fdb.FDBError] (with its error code) and the builtin exceptions raised
    by the tuple layer and by the code's own indexing and arithmetic. *)
Inductive exn : Type :=
  | FDBError (code : Z)
  | IndexError
  | ValueError
  | TypeError
  | StructError.

Inductive result (A : Type) : Type :=
  | Ok (a : A)
  | Raise (e : exn).
Arguments Ok {A} a.
Arguments Raise {A} e.

#[global] Instance result_ret : MRet result := fun A a => Ok a.
#[global] Instance result_bind : MBind result := fun A B f m =>
  match m with
  | Ok a => f a
  | Raise e => Raise e
  end.

(** ** The tuple layer ([fdb.tuple]) *)

(** Packing and unpacking of tuples of [None], byte strings, unicode strings
    and integers, as the Python binding that [fdb.api_version(200)] selects
    does it.  An integer is packed as the type code [20 + n] (positive) or
    [20 - n] (negative) followed by [n <= 8] big-endian bytes; an integer
    that needs more than eight bytes makes [pack] raise. *)
Module tuple.

(** The Python values a packed tuple can hold. *)
Inductive item : Type :=
  | PyNone
  | PyBytes (b : bytes)
  | PyUnicode (utf8 : bytes)
  | PyInt (z : Z).

(** [_size_limits = tuple((1 << (i*8)) - 1 for i in range(9))] *)
Definition _size_limits : list Z :=
  map (fun i => Z.shiftl 1 (i * 8) - 1) (seqZ 0 9).

(** [bisect.bisect_left] on a sorted list: the first index whose element is
    not below [v] (the length when there is none). *)
Fixpoint bisect_left (l : list Z) (v : Z) : nat :=
  match l with
  | [] => O
  | e :: l' => if e <? v then S (bisect_left l' v) else O
  end.

(** Big-endian bytes of the [n] low-order bytes of [v]. *)
Fixpoint be_bytes (n : nat) (v : Z) : bytes :=
  match n with
  | O => []
  | S n' => be_bytes n' (v / 256) ++ [int2byte (v mod 256)]
  end.

(** The unsigned integer a big-endian byte string denotes. *)
Definition be_value (s : bytes) : Z :=
  fold_left (fun acc b => acc * 256 + ord b) s 0.

(** [struct.pack(">Q", v)]: eight big-endian bytes; [struct.error] outside
    the unsigned 64-bit range. *)
Definition struct_pack_Q (v : Z) : result bytes :=
  if (0 <=? v) && (v <? 2 ^ 64) then Ok (be_bytes 8 v) else Raise StructError.

(** [struct.unpack(">Q", s)[0]]: needs exactly eight bytes. *)
Definition struct_unpack_Q (s : bytes) : result Z :=
  if (length s =? 8)%nat then Ok (be_value s) else Raise StructError.

(** The slice [s[-n:]]: the last [n] bytes (all of [s] when [n] is 0 or
    exceeds its length). *)
Definition suffix (n : nat) (s : bytes) : bytes :=
  if (n =? 0)%nat then s else drop (length s - n) s.

(** [value.replace(b'\x00', b'\x00\xFF')] *)
Definition escape (s : bytes) : bytes :=
  flat_map (fun b => if Byte.eqb b x00 then [x00; xff] else [b]) s.

(** [_encode(value)] *)
Definition _encode (value : item) : result bytes :=
  match value with
  | PyNone => Ok [x00]
  | PyBytes b => Ok (x01 :: escape b ++ [x00])
  | PyUnicode u => Ok (x02 :: escape u ++ [x00])
  | PyInt value =>
      if value =? 0 then Ok [int2byte 20]
      else if 0 <? value then
        let n := bisect_left _size_limits value in
        s ← struct_pack_Q value;
        Ok (int2byte (20 + Z.of_nat n) :: suffix n s)
      else
        let n := bisect_left _size_limits (- value) in
        match _size_limits !! n with
        | None => Raise IndexError
        | Some maxv =>
            s ← struct_pack_Q (maxv + value);
            Ok (int2byte (20 - Z.of_nat n) :: suffix n s)
        end
  end.

(** [pack(t) = b''.join([_encode(x) for x in t])] *)
Fixpoint pack (t : list item) : result bytes :=
  match t with
  | [] => Ok []
  | x :: t' => e ← _encode x; r ← pack t'; Ok (e ++ r)
  end.

(** [_find_terminator(v, pos)], as an offset into [s = v[pos:]]: the first
    [\x00] that is not followed by [\xff], or the end of [s]. *)
Fixpoint _find_terminator (s : bytes) : nat :=
  match s with
  | [] => O
  | b :: s' =>
      if Byte.eqb b x00 then
        match s' with
        | c :: s'' => if Byte.eqb c xff then S (S (_find_terminator s'')) else O
        | [] => O
        end
      else S (_find_terminator s')
  end.

(** [s.replace(b"\x00\xFF", b"\x00")] *)
Fixpoint unescape (s : bytes) : bytes :=
  match s with
  | [] => []
  | b :: s' =>
      b :: (if Byte.eqb b x00 then
              match s' with
              | c :: s'' => if Byte.eqb c xff then unescape s'' else unescape s'
              | [] => []
              end
            else unescape s')
  end.

(** [_decode(v, pos)] on [s = v[pos:]], returning the item and the rest
    [v[end:]].  The UTF-8 decoding of unicode items is not modelled: the item
    keeps its bytes. *)
Definition _decode (s : bytes) : result (item * bytes) :=
  match s with
  | [] => Raise IndexError
  | c :: rest =>
      let code := ord c in
      if code =? 0 then Ok (PyNone, rest)
      else if code =? 1 then
        let e := _find_terminator rest in
        Ok (PyBytes (unescape (take e rest)), drop (S e) rest)
      else if code =? 2 then
        let e := _find_terminator rest in
        Ok (PyUnicode (unescape (take e rest)), drop (S e) rest)
      else if (20 <=? code) && (code <=? 28) then
        let n := Z.to_nat (code - 20) in
        q ← struct_unpack_Q (replicate (8 - n) x00 ++ take n rest);
        Ok (PyInt q, drop n rest)
      else if (12 <=? code) && (code <? 20) then
        let n := Z.to_nat (20 - code) in
        q ← struct_unpack_Q (replicate (8 - n) x00 ++ take n rest);
        Ok (PyInt (q - default 0 (_size_limits !! n)), drop n rest)
      else Raise ValueError
  end.

(** [unpack(key)]: decode items until the input is used up.  Every item
    takes at least its code byte, so [length key] rounds are enough. *)
Fixpoint unpack_loop (rounds : nat) (s : bytes) : result (list item) :=
  match s, rounds with
  | [], _ => Ok []
  | _, O => Ok []
  | _, S rounds' =>
      '(r, s') ← _decode s;
      res ← unpack_loop rounds' s';
      Ok (r :: res)
  end.

Definition unpack (key : bytes) : result (list item) :=
  unpack_loop (length key) key.
End tuple.

(** ** Shard store adapter *)

(** [_encode_int(i) = fdb.tuple.pack((i,))] *)
Definition _encode_int (i : Z) : result bytes :=
  tuple.pack [tuple.PyInt i].

(** [_decode_int(s) = fdb.tuple.unpack(s)[0]]; the value is whatever item
    comes first, an [IndexError] when the tuple is empty. *)
Definition _decode_int (s : bytes) : result tuple.item :=
  t ← tuple.unpack s;
  match t !! 0%nat with
  | Some x => Ok x
  | None => Raise IndexError
  end.

(** [randID()]: twenty bytes from [os.urandom]; which bytes is the caller's
    (the world's) business, see [os_urandom] below. *)
Definition randID_size : nat := 20.

(** ** Keys in order *)

(** Byte strings compare lexicographically by unsigned byte value. *)
Fixpoint bytes_leb (a b : bytes) : bool :=
  match a, b with
  | [], _ => true
  | _ :: _, [] => false
  | x :: a', y :: b' =>
      if ord x <? ord y then true
      else if ord x =? ord y then bytes_leb a' b'
      else false
  end.

Definition bytes_ltb (a b : bytes) : bool := negb (bytes_leb b a).

(** [k] lies in the half-open key range [[start, stop)]. *)
Definition in_range (start stop k : bytes) : bool :=
  bytes_leb start k && bytes_ltb k stop.

(** ** Subspaces ([fdb.Subspace]) *)

Module Subspace.

Record t : Type := { rawPrefix : bytes }.

(** [pack(t) = self.rawPrefix + fdb.tuple.pack(t)] *)
Definition pack (s : t) (tup : list tuple.item) : result bytes :=
  p ← tuple.pack tup; Ok (rawPrefix s ++ p).

(** [range() = slice(self.rawPrefix + b'\x00', self.rawPrefix + b'\xff')] *)
Definition range (s : t) : bytes * bytes :=
  (rawPrefix s ++ [x00], rawPrefix s ++ [xff]).

End Subspace.

(** ** The store: database contents and transactions *)

(** Staged writes of a transaction. *)
Inductive mutation : Type :=
  | MSet (k v : bytes)
  | MClear (k : bytes).

(** A transaction object: the database as of its read version, the writes
    staged so far (oldest first), the keys and ranges read in conflict-tracked
    mode, and the [snapshot_ryw] option (whether snapshot reads see the
    transaction's own writes). *)
Record Transaction : Type := mkTransaction {
  base : gmap bytes bytes;
  mutations : list mutation;
  read_keys : list bytes;
  read_ranges : list (bytes * bytes);
  snapshot_ryw : bool
}.

Definition apply_mutation (d : gmap bytes bytes) (m : mutation) : gmap bytes bytes :=
  match m with
  | MSet k v => <[k:=v]> d
  | MClear k => delete k d
  end.

Definition apply_mutations (ms : list mutation) (d : gmap bytes bytes) : gmap bytes bytes :=
  foldl apply_mutation d ms.

(** What a conflict-tracked read of the transaction sees: the read version
    overlaid with its own writes. *)
Definition tr_view (t : Transaction) : gmap bytes bytes :=
  apply_mutations (mutations t) (base t).

(** What a snapshot read sees. *)
Definition snapshot_view (t : Transaction) : gmap bytes bytes :=
  if snapshot_ryw t then tr_view t else base t.

Definition key_le (x y : bytes * bytes) : Prop := bytes_leb x.1 y.1 = true.

#[global] Instance key_le_dec : RelDecision key_le.
Proof. intros x y. unfold key_le. apply _. Defined.

(** The entries of [d] with keys in [[start, stop)]. *)
Definition range_entries (start stop : bytes) (d : gmap bytes bytes) : gmap bytes bytes :=
  filter (fun kv => in_range start stop kv.1 = true) d.

(** A range read: the entries of [[start, stop)] in key order (descending when
    [reverse]), cut to the first [limit] of them unless [limit] is 0. *)
Definition range_scan (d : gmap bytes bytes) (start stop : bytes)
    (limit : nat) (reverse : bool) : list (bytes * bytes) :=
  let hits := merge_sort key_le (map_to_list (range_entries start stop d)) in
  let ordered := if reverse then list.reverse hits else hits in
  if (limit =? 0)%nat then ordered else take limit ordered.

(** A commit goes through when nothing the transaction read in
    conflict-tracked mode differs, in the database it commits to, from what
    it read; its writes are then applied in order.  (The store rejects a
    commit as soon as a key read was written meanwhile, even with the same
    value: every commit the store accepts is accepted here.) *)
Definition conflict_free (d : gmap bytes bytes) (t : Transaction) : bool :=
  forallb (fun k => bool_decide (d !! k = base t !! k)) (read_keys t)
  && forallb (fun r => bool_decide (range_entries r.1 r.2 d = range_entries r.1 r.2 (base t)))
       (read_ranges t).

Definition commit_outcome (d : gmap bytes bytes) (t : Transaction) : option (gmap bytes bytes) :=
  if conflict_free d t then Some (apply_mutations (mutations t) d) else None.

(** ** The world the counter runs in *)

(** The committed database, the transaction objects alive (a transaction is
    named by its position), the transactions whose commit has been issued
    without waiting, and what the environment will answer: the bytes of
    [os.urandom], the floats of [random.random()] (as the rationals they
    denote), and for each blocking store call the [FDBError] code it fails
    with, if it fails. *)
Record World : Type := mkWorld {
  database : gmap bytes bytes;
  heap : list Transaction;
  committing : list nat;
  urandom_src : nat -> byte;
  random_src : nat -> Q;
  faults : nat -> option Z
}.

(** Computations: they may change the world and may raise; what was done
    before an exception stays done. *)
Definition M (A : Type) : Type := World -> result A * World.

#[global] Instance M_ret : MRet M := fun A a w => (Ok a, w).
#[global] Instance M_bind : MBind M := fun A B f m w =>
  match m w with
  | (Ok a, w') => f a w'
  | (Raise e, w') => (Raise e, w')
  end.

Definition lift {A} (r : result A) : M A := fun w => (r, w).

(** A step given directly by what it does to the world. *)
Definition act {A} (f : World -> result A * World) : M A := f.

(** [try: body / except fdb.FDBError as e: handler] *)
Definition try_except_FDBError {A} (body handler : M A) : M A := fun w =>
  match body w with
  | (Raise (FDBError _), w') => handler w'
  | r => r
  end.

Definition set_heap (hp : list Transaction) (w : World) : World :=
  mkWorld (database w) hp (committing w) (urandom_src w) (random_src w) (faults w).

Definition set_committing (c : list nat) (w : World) : World :=
  mkWorld (database w) (heap w) c (urandom_src w) (random_src w) (faults w).

Definition set_urandom_src (u : nat -> byte) (w : World) : World :=
  mkWorld (database w) (heap w) (committing w) u (random_src w) (faults w).

Definition set_random_src (r : nat -> Q) (w : World) : World :=
  mkWorld (database w) (heap w) (committing w) (urandom_src w) r (faults w).

Definition set_faults (f : nat -> option Z) (w : World) : World :=
  mkWorld (database w) (heap w) (committing w) (urandom_src w) (random_src w) f.

(** [os.urandom(n)] *)
Definition os_urandom (n : nat) : M bytes := fun w =>
  (Ok (map (urandom_src w) (seq 0 n)),
   set_urandom_src (fun i => urandom_src w (n + i)%nat) w).

(** [random.random()] *)
Definition random_random : M Q := fun w =>
  (Ok (random_src w 0%nat), set_random_src (fun i => random_src w (S i)) w).

(** A call that waits on the store: it fails with an [FDBError] when the
    environment says so. *)
Definition store_call : M unit := fun w =>
  (match faults w 0%nat with
   | Some code => Raise (FDBError code)
   | None => Ok tt
   end,
   set_faults (fun i => faults w (S i)) w).

Definition api_version : Z := 200.

(** [db.create_transaction()]: a new transaction object reading the database
    as it is now.  Snapshot reads see the transaction's own writes by default
    from API version 300 on. *)
Definition create_transaction : M nat :=
  _ ← store_call;
  act (fun w =>
    let t := mkTransaction (database w) [] [] [] (300 <=? api_version) in
    (Ok (length (heap w)), set_heap (heap w ++ [t]) w)).

Definition update_tr (tr : nat) (f : Transaction -> Transaction) : M unit := fun w =>
  (Ok tt, set_heap (alter f tr (heap w)) w).

(** The transaction object a handle names. *)
Definition the_tr (tr : nat) (w : World) : Transaction :=
  default (mkTransaction ∅ [] [] [] false) (heap w !! tr).

Definition add_read_key (k : bytes) (t : Transaction) : Transaction :=
  mkTransaction (base t) (mutations t) (read_keys t ++ [k]) (read_ranges t) (snapshot_ryw t).

Definition add_read_range (r : bytes * bytes) (t : Transaction) : Transaction :=
  mkTransaction (base t) (mutations t) (read_keys t) (read_ranges t ++ [r]) (snapshot_ryw t).

Definition add_mutation (m : mutation) (t : Transaction) : Transaction :=
  mkTransaction (base t) (mutations t ++ [m]) (read_keys t) (read_ranges t) (snapshot_ryw t).

(** [tr[k]]: a conflict-tracked point read (the value is a future; asking
    for it does not wait). *)
Definition tr_get (tr : nat) (k : bytes) : M (option bytes) :=
  v ← act (fun w => (Ok (tr_view (the_tr tr w) !! k), w));
  _ ← update_tr tr (add_read_key k);
  mret v.

(** [del tr[k]] *)
Definition tr_clear (tr : nat) (k : bytes) : M unit :=
  update_tr tr (add_mutation (MClear k)).

(** [tr[k] = v] *)
Definition tr_set (tr : nat) (k v : bytes) : M unit :=
  update_tr tr (add_mutation (MSet k v)).

(** [tr.get_range(start, stop, limit, reverse)], iterated: a conflict-tracked
    range read. *)
Definition tr_get_range (tr : nat) (start stop : bytes) (limit : nat) (reverse : bool)
    : M (list (bytes * bytes)) :=
  _ ← store_call;
  l ← act (fun w => (Ok (range_scan (tr_view (the_tr tr w)) start stop limit reverse), w));
  _ ← update_tr tr (add_read_range (start, stop));
  mret l.

(** [tr.snapshot.get_range(start, stop, limit, reverse)], iterated: the same
    read without any read-conflict range. *)
Definition snapshot_get_range (tr : nat) (start stop : bytes) (limit : nat) (reverse : bool)
    : M (list (bytes * bytes)) :=
  _ ← store_call;
  act (fun w =>
    (Ok (range_scan (snapshot_view (the_tr tr w)) start stop limit reverse), w)).

(** [tr.commit()] without [.wait()]: the commit is on its way; the handle is
    kept so that the transaction stays alive. *)
Definition tr_commit (tr : nat) : M unit := fun w =>
  (Ok tt, set_committing (committing w ++ [tr]) w).

(** ** The counter *)

Record Counter : Type := { subspace : Subspace.t }.

(** [a < b] on the floats of [random.random()]. *)
Definition Qltb (a b : Q) : bool := negb (Qle_bool b a).

(** [total += x]: integers add; anything else next to an [int] total is a
    [TypeError]. *)
Definition iadd (total : Z) (x : tuple.item) : result Z :=
  match x with
  | tuple.PyInt z => Ok (total + z)
  | _ => Raise TypeError
  end.

(** [randID()] *)
Definition randID : M bytes := os_urandom randID_size.

(** The loop of [_coalesce]:
    [for k,v in shards: total += _decode_int(v); tr[k]; del tr[k]] *)
Fixpoint coalesce_loop (tr : nat) (shards : list (bytes * bytes)) (total : Z) : M Z :=
  match shards with
  | [] => mret total
  | (k, v) :: shards' =>
      x ← lift (_decode_int v);
      total ← lift (iadd total x);
      _ ← tr_get tr k;
      _ ← tr_clear tr k;
      coalesce_loop tr shards' total
  end.

(** [Counter._coalesce(self, N)] *)
Definition _coalesce (self : Counter) (N : nat) : M unit :=
  let total := 0 in
  tr ← create_transaction;
  try_except_FDBError
    (rid ← randID;
     loc ← lift (Subspace.pack (subspace self) [tuple.PyBytes rid]);
     r ← random_random;
     shards ← (if Qltb r (1 # 2)
               then snapshot_get_range tr loc (Subspace.range (subspace self)).2 N false
               else snapshot_get_range tr (Subspace.range (subspace self)).1 loc N true);
     total ← coalesce_loop tr shards total;
     v ← lift (_encode_int total);
     rid' ← randID;
     k ← lift (Subspace.pack (subspace self) [tuple.PyBytes rid']);
     _ ← tr_set tr k v;
     tr_commit tr)
    (mret tt).

(** The summing loop of both read paths:
    [for k,v in ...: total += _decode_int(v)] *)
Fixpoint sum_loop (shards : list (bytes * bytes)) (total : Z) : result Z :=
  match shards with
  | [] => Ok total
  | (k, v) :: shards' =>
      x ← _decode_int v;
      total ← iadd total x;
      sum_loop shards' total
  end.

(** [Counter.get_transactional(self, tr)] *)
Definition get_transactional (self : Counter) (tr : nat) : M Z :=
  let total := 0 in
  shards ← tr_get_range tr (Subspace.range (subspace self)).1
             (Subspace.range (subspace self)).2 0 false;
  lift (sum_loop shards total).

(** [Counter.get_snapshot(self, tr)] *)
Definition get_snapshot (self : Counter) (tr : nat) : M Z :=
  let total := 0 in
  shards ← snapshot_get_range tr (Subspace.range (subspace self)).1
             (Subspace.range (subspace self)).2 0 false;
  lift (sum_loop shards total).

(** [0.1] as the float it is: 3602879701896397 / 2^55. *)
Definition one_tenth : Q := 3602879701896397 # 36028797018963968.

(** [Counter.add(self, tr, x)] *)
Definition add (self : Counter) (tr : nat) (x : Z) : M unit :=
  v ← lift (_encode_int x);
  rid ← randID;
  k ← lift (Subspace.pack (subspace self) [tuple.PyBytes rid]);
  _ ← tr_set tr k v;
  r ← random_random;
  if Qltb r one_tenth then _coalesce self 20 else mret tt.

(** [Counter.set_total(self, tr, x)] *)
Definition set_total (self : Counter) (tr : nat) (x : Z) : M unit :=
  value ← get_snapshot self tr;
  add self tr (x - value).

(** ** What the statements below talk about *)

(** The integers the tuple layer's integer items hold: magnitudes of up to
    eight bytes. *)
Definition encodable (i : Z) : Prop := - 2 ^ 64 < i < 2 ^ 64.

(** The key [self.subspace.pack((rid,))] packs to. *)
Definition shard_key (s : Subspace.t) (rid : bytes) : bytes :=
  Subspace.rawPrefix s ++ x01 :: tuple.escape rid ++ [x00].

(** The integer a shard value decodes to, when it does. *)
Definition shard_int (v : bytes) : option Z :=
  match _decode_int v with
  | Ok (tuple.PyInt z) => Some z
  | _ => None
  end.

Definition shard_value (v : bytes) : Z := default 0 (shard_int v).

(** The shards of a counter in a database: the entries of its namespace. *)
Definition shards (self : Counter) (d : gmap bytes bytes) : gmap bytes bytes :=
  range_entries (Subspace.range (subspace self)).1 (Subspace.range (subspace self)).2 d.

(** Every shard holds an integer. *)
Definition all_ints (d : gmap bytes bytes) : Prop :=
  forall k v, d !! k = Some v -> is_Some (shard_int v).

Definition sum_values (l : list (bytes * bytes)) : Z :=
  foldr (fun kv acc => shard_value kv.2 + acc) 0 l.

(** The logical value of the counter and its number of shards. *)
Definition shard_sum (self : Counter) (d : gmap bytes bytes) : Z :=
  sum_values (map_to_list (shards self d)).

Definition shard_count (self : Counter) (d : gmap bytes bytes) : nat :=
  size (shards self d).

(** The bytes the next [os.urandom(n)] returns, and the next after [skip]
    bytes have been drawn. *)
Definition next_urandom (skip n : nat) (w : World) : bytes :=
  map (urandom_src w) (seq skip n).

(** The window [_coalesce] samples from a database: from the pivot [rid]
    upwards when the draw [r] is below one half, downwards otherwise. *)
Definition scan_window (self : Counter) (N : nat) (d : gmap bytes bytes)
    (rid : bytes) (r : Q) : list (bytes * bytes) :=
  if Qltb r (1 # 2)
  then range_scan d (shard_key (subspace self) rid) (Subspace.range (subspace self)).2 N false
  else range_scan d (Subspace.range (subspace self)).1 (shard_key (subspace self) rid) N true.

(** The keys a transaction clears and the entries it sets. *)
Definition cleared (t : Transaction) : list bytes :=
  omap (fun m => match m with MClear k => Some k | _ => None end) (mutations t).

Definition written (t : Transaction) : list (bytes * bytes) :=
  omap (fun m => match m with MSet k v => Some (k, v) | _ => None end) (mutations t).

(** What the loop of [_coalesce] does to its transaction when it goes
    through the entries [l]. *)
Definition loop_tr (l : list (bytes * bytes)) (t : Transaction) : Transaction :=
  mkTransaction (base t) (mutations t ++ (MClear <$> l.*1)) (read_keys t ++ l.*1)
    (read_ranges t) (snapshot_ryw t).

(** Every entry of a scan result holds an integer. *)
Definition ints (l : list (bytes * bytes)) : Prop :=
  Forall (fun kv => is_Some (shard_int kv.2)) l.

(** An exception other than [fdb.FDBError]. *)
Definition not_FDBError (e : exn) : Prop := forall c, e <> FDBError c.

(** The ways a call [_coalesce(N)] made in world [w] can end, with the
    result and world it ends in.  The window is the scan of the database
    from the pivot drawn first; the new shard's key comes from the second
    draw. *)
Inductive coalesce_outcome (self : Counter) (N : nat) (w : World)
    : result unit -> World -> Prop :=
  | co_no_transaction c w' :
      faults w 0%nat = Some c ->
      committing w' = committing w ->
      coalesce_outcome self N w (Raise (FDBError c)) w'
  | co_scan_failed c w' :
      faults w 0%nat = None ->
      faults w 1%nat = Some c ->
      committing w' = committing w ->
      coalesce_outcome self N w (Ok tt) w'
  | co_not_an_integer e w' :
      faults w 0%nat = None ->
      faults w 1%nat = None ->
      ~ ints (scan_window self N (database w) (next_urandom 0 20 w) (random_src w 0%nat)) ->
      not_FDBError e ->
      committing w' = committing w ->
      coalesce_outcome self N w (Raise e) w'
  | co_not_encodable e w' :
      faults w 0%nat = None ->
      faults w 1%nat = None ->
      ints (scan_window self N (database w) (next_urandom 0 20 w) (random_src w 0%nat)) ->
      _encode_int
        (sum_values (scan_window self N (database w) (next_urandom 0 20 w)
                       (random_src w 0%nat))) = Raise e ->
      not_FDBError e ->
      committing w' = committing w ->
      coalesce_outcome self N w (Raise e) w'
  | co_committing v w' :
      let win := scan_window self N (database w) (next_urandom 0 20 w)
                   (random_src w 0%nat) in
      faults w 0%nat = None ->
      faults w 1%nat = None ->
      ints win ->
      _encode_int (sum_values win) = Ok v ->
      committing w' = committing w ++ [length (heap w)] ->
      heap w' !! length (heap w)
      = Some (mkTransaction (database w)
                ((MClear <$> win.*1)
                 ++ [MSet (shard_key (subspace self) (next_urandom 20 20 w)) v])
                win.*1 [] false) ->
      coalesce_outcome self N w (Ok tt) w'.

(** The entries a database holds at the keys [ks]. *)
Definition values_at (d : gmap bytes bytes) (ks : list bytes) : list (bytes * bytes) :=
  omap (fun k => pair k <$> d !! k) ks.

(** ** A small counter to run the code on *)

Module example.

(** A counter under the prefix [\x15\x07], with shards 5, -3 and 7 at keys
    whose random parts are [\x10], [\x20] and [\x30], next to a foreign key
    outside the namespace. *)
Definition counter : Counter :=
  {| subspace := {| Subspace.rawPrefix := [x15; x07] |} |}.

Definition key (b : byte) : bytes := shard_key (subspace counter) [b].

Definition value (z : Z) : bytes :=
  match _encode_int z with Ok s => s | Raise _ => [] end.

Definition db : gmap bytes bytes :=
  <[key x10 := value 5]> (<[key x20 := value (-3)]> (<[key x30 := value 7]>
    (<[[x16] := [x00]]> ∅))).

(** A world on [db] where [os.urandom] yields [\x18] bytes, [random.random()]
    yields [r], and the store calls fail as [f] says. *)
Definition world (r : Q) (f : nat -> option Z) : World :=
  mkWorld db [] [] (fun _ => x18) (fun _ => r) f.

Definition no_faults : nat -> option Z := fun _ => None.

(** The second store call fails with [not_committed]. *)
Definition scan_fails : nat -> option Z :=
  fun i => if (i =? 1)%nat then Some 1020 else None.

(** The same world with one transaction open, at handle 0. *)
Definition world_tr (r : Q) : World := (create_transaction (world r no_faults)).2.

(** [db] after a pass that merged the shards -3 and 7 into a new shard 4. *)
Definition db_merged : gmap bytes bytes :=
  <[shard_key (subspace counter) (replicate 20 x18) := value 4]>
    (delete (key x30) (delete (key x20) db)).

(** [db] where the shard at [\x20] holds the empty string. *)
Definition db_bad : gmap bytes bytes := <[key x20 := []]> db.

Definition world_bad : World :=
  mkWorld db_bad [] [] (fun _ => x18) (fun _ => 1 # 4) no_faults.

(** A database without shards. *)
Definition db_empty : gmap bytes bytes := <[[x16] := [x00]]> ∅.

Definition world_empty : World :=
  mkWorld db_empty [] [] (fun _ => x18) (fun _ => 1 # 4) no_faults.

End example.

(** ** Calling the counter on the database *)

Definition set_database (d : gmap bytes bytes) (w : World) : World :=
  mkWorld d (heap w) (committing w) (urandom_src w) (random_src w) (faults w).

(** [tr.commit().wait()]: the commit is applied to the database as it is
    now, or refused with [not_committed] (1020). *)
Definition tr_commit_wait (tr : nat) : M unit :=
  _ ← store_call;
  act (fun w =>
    match commit_outcome (database w) (the_tr tr w) with
    | Some d => (Ok tt, set_database d w)
    | None => (Raise (FDBError 1020), w)
    end).

(** [tr.on_error(code).wait()]: the store either gives the error back, when
    it is not one to retry, or resets the transaction for another attempt.
    Which it does is the store's answer to this call: an answer [Some _] is a
    refusal. *)
Definition tr_on_error (tr : nat) (code : Z) : M unit := fun w =>
  match faults w 0%nat with
  | Some _ => (Raise (FDBError code), set_faults (fun i => faults w (S i)) w)
  | None =>
      (Ok tt,
       set_heap (alter (fun t => mkTransaction (database w) [] [] [] (snapshot_ryw t))
                   tr (heap w))
         (set_faults (fun i => faults w (S i)) w))
  end.

(** The retry loop of [@fdb.transactional]:
    [while not committed: try: ret = func(tr); tr.commit().wait(); committed = True
     except FDBError as e: tr.on_error(e.code).wait()],
    for at most [rounds] rounds; [None] when they are used up. *)
Fixpoint transactional_loop {A} (rounds : nat) (func : nat -> M A) (tr : nat)
    : M (option A) :=
  match rounds with
  | O => mret None
  | S rounds' => fun w =>
      match (ret ← func tr; _ ← tr_commit_wait tr; mret ret) w with
      | (Ok ret, w') => (Ok (Some ret), w')
      | (Raise (FDBError code), w') =>
          (_ ← tr_on_error tr code; transactional_loop rounds' func tr) w'
      | (Raise e, w') => (Raise e, w')
      end
  end.

(** A method decorated with [@fdb.transactional], called with the database
    in place of a transaction: a transaction is created and the method run in
    it until a commit goes through. *)
Definition transactional {A} (rounds : nat) (func : nat -> M A) : M (option A) :=
  tr ← create_transaction;
  transactional_loop rounds func tr.

(** [incrementer_thread(counter, db, n)]:
    [for i in range(n): counter.add(db, 1)] *)
Fixpoint incrementer_thread (counter : Counter) (rounds n : nat) : M (option unit) :=
  match n with
  | O => mret (Some tt)
  | S n' =>
      r ← transactional rounds (fun tr => add counter tr 1);
      match r with
      | Some _ => incrementer_thread counter rounds n'
      | None => mret None
      end
  end.

(** The database with the entries [news] put in, one after the other. *)
Definition insert_all (news : list (bytes * bytes)) (d : gmap bytes bytes)
    : gmap bytes bytes :=
  foldl (fun d kv => <[kv.1:=kv.2]> d) d news.

(** A shard written by [add(x)]: a key made from twenty bytes, a value that
    decodes to [x]. *)
Definition added_shard (self : Counter) (x : Z) (kv : bytes * bytes) : Prop :=
  (exists rid, length rid = 20%nat /\ kv.1 = shard_key (subspace self) rid) /\
  shard_int kv.2 = Some x.

(** ** More worlds to run the code on *)

Module scenario.

(** The example world with a transaction open, where [random.random()]
    yields [r] and the store calls fail as [f] says from the next call on. *)
Definition world_tr (r : Q) (f : nat -> option Z) : World :=
  set_faults f (example.world_tr r).

(** The first store call fails with [transaction_too_old]. *)
Definition first_fails : nat -> option Z :=
  fun i => if (i =? 0)%nat then Some 1007 else None.

(** [os.urandom] yields [\x28] bytes. *)
Definition other_world_tr (r : Q) : World :=
  set_urandom_src (fun _ => x28) (example.world_tr r).

(** The example database after the shard at [\x20] was rewritten. *)
Definition db_changed : gmap bytes bytes :=
  <[example.key x20 := example.value 11]> example.db.

(** The example database after a foreign key was written. *)
Definition db_foreign : gmap bytes bytes := <[[x17] := [x00]]> example.db.


(** [os.urandom] yields twenty [\x18] bytes, then twenty [\x28] bytes, then
    [\x38] bytes. *)
Definition urandom_blocks : nat -> byte :=
  fun i => if (i <? 20)%nat then x18 else if (i <? 40)%nat then x28 else x38.

(** The example world with these bytes and no transaction open. *)
Definition world_blocks : World :=
  set_urandom_src urandom_blocks (example.world (1 # 2) example.no_faults).

End scenario.
(** ** Facts about the tuple layer *)

Module tuple_facts.
Import tuple.

Lemma ord_int2byte z : 0 <= z < 256 -> ord (int2byte z) = z.
Proof.
  intros Hz. unfold ord, int2byte.
  destruct (Byte.of_N (Z.to_N z)) as [b|] eqn:E.
  - apply Byte.to_of_N in E. simpl. rewrite E. lia.
  - apply Byte.of_N_None_iff in E. lia.
Qed.

Lemma be_value_snoc s b : be_value (s ++ [b]) = be_value s * 256 + ord b.
Proof. unfold be_value. by rewrite fold_left_app. Qed.

Lemma be_value_zeros k s : be_value (replicate k x00 ++ s) = be_value s.
Proof.
  unfold be_value. rewrite fold_left_app. f_equal.
  induction k as [|k IH]; [done|]. simpl. exact IH.
Qed.

Lemma length_be_bytes n v : length (be_bytes n v) = n.
Proof.
  revert v. induction n as [|n IH]; intros v; [done|].
  simpl. rewrite length_app, IH. simpl. lia.
Qed.

Lemma be_value_be_bytes n v :
  0 <= v -> be_value (be_bytes n v) = v mod 256 ^ Z.of_nat n.
Proof.
  revert v. induction n as [|n IH]; intros v Hv.
  - simpl. by rewrite Z.mod_1_r.
  - cbn [be_bytes]. rewrite be_value_snoc, IH by (apply Z.div_pos; lia).
    rewrite ord_int2byte by (apply Z.mod_pos_bound; lia).
    rewrite Nat2Z.inj_succ, Z.pow_succ_r by lia.
    rewrite (Z.rem_mul_r v 256 (256 ^ Z.of_nat n)) by lia. lia.
Qed.

Lemma drop_be_bytes n m v : drop m (be_bytes (n + m) v) = be_bytes n v.
Proof.
  revert v. induction n as [|n IH]; intros v.
  - simpl. apply drop_ge. by rewrite length_be_bytes.
  - cbn [Nat.add be_bytes]. rewrite drop_app_le by (rewrite length_be_bytes; lia).
    by rewrite IH.
Qed.

Lemma suffix_be_bytes n v :
  (1 <= n <= 8)%nat -> suffix n (be_bytes 8 v) = be_bytes n v.
Proof.
  intros Hn. unfold suffix.
  destruct (Nat.eqb_spec n 0); [lia|].
  rewrite length_be_bytes.
  replace 8%nat with (n + (8 - n))%nat at 2 by lia.
  apply drop_be_bytes.
Qed.

Lemma size_limits_lookup n :
  (n <= 8)%nat -> _size_limits !! n = Some (256 ^ Z.of_nat n - 1).
Proof.
  intros Hn. do 9 (destruct n as [|n]; [reflexivity|]). lia.
Qed.

(** [bisect_left] finds the byte length of a positive 64-bit magnitude. *)
Lemma bisect_left_size_limits v :
  0 < v < 2 ^ 64 ->
  let n := bisect_left _size_limits v in
  (1 <= n <= 8)%nat /\ v < 256 ^ Z.of_nat n.
Proof.
  intros Hv. change _size_limits with
    [0; 255; 65535; 16777215; 4294967295; 1099511627775; 281474976710655;
     72057594037927935; 18446744073709551615].
  cbn [bisect_left].
  repeat (match goal with |- context [?a <? ?b] => destruct (Z.ltb_spec a b) end;
          [|cbv zeta; split; [lia|simpl; lia]]).
  simpl in *. lia.
Qed.

Lemma struct_pack_Q_ok v : 0 <= v < 2 ^ 64 -> struct_pack_Q v = Ok (be_bytes 8 v).
Proof.
  intros Hv. unfold struct_pack_Q.
  destruct (Z.leb_spec 0 v); [|lia]. destruct (Z.ltb_spec v (2 ^ 64)); [done|lia].
Qed.

Lemma struct_unpack_Q_padded n v :
  (n <= 8)%nat -> 0 <= v < 256 ^ Z.of_nat n ->
  struct_unpack_Q (replicate (8 - n) x00 ++ be_bytes n v) = Ok v.
Proof.
  intros Hn Hv. unfold struct_unpack_Q.
  rewrite length_app, length_replicate, length_be_bytes.
  replace (8 - n + n)%nat with 8%nat by lia. simpl.
  rewrite be_value_zeros, be_value_be_bytes by lia.
  by rewrite Z.mod_small.
Qed.

(** Decoding an integer item with a positive type code. *)
Lemma _decode_pos n v rest :
  (1 <= n <= 8)%nat -> 0 <= v < 256 ^ Z.of_nat n ->
  _decode (int2byte (20 + Z.of_nat n) :: be_bytes n v ++ rest) = Ok (PyInt v, rest).
Proof.
  intros Hn Hv. unfold _decode.
  rewrite ord_int2byte by lia.
  destruct (Z.eqb_spec (20 + Z.of_nat n) 0); [lia|].
  destruct (Z.eqb_spec (20 + Z.of_nat n) 1); [lia|].
  destruct (Z.eqb_spec (20 + Z.of_nat n) 2); [lia|].
  destruct (Z.leb_spec 20 (20 + Z.of_nat n)); [|lia].
  destruct (Z.leb_spec (20 + Z.of_nat n) 28); [|lia].
  cbn [andb].
  replace (Z.to_nat (20 + Z.of_nat n - 20)) with n by lia.
  rewrite take_app_length' by (by rewrite length_be_bytes).
  rewrite drop_app_length' by (by rewrite length_be_bytes).
  rewrite struct_unpack_Q_padded by lia. reflexivity.
Qed.

(** Decoding an integer item with a negative type code. *)
Lemma _decode_neg n v rest :
  (1 <= n <= 8)%nat -> 0 <= v < 256 ^ Z.of_nat n ->
  _decode (int2byte (20 - Z.of_nat n) :: be_bytes n v ++ rest)
  = Ok (PyInt (v - (256 ^ Z.of_nat n - 1)), rest).
Proof.
  intros Hn Hv. unfold _decode.
  rewrite ord_int2byte by lia.
  destruct (Z.eqb_spec (20 - Z.of_nat n) 0); [lia|].
  destruct (Z.eqb_spec (20 - Z.of_nat n) 1); [lia|].
  destruct (Z.eqb_spec (20 - Z.of_nat n) 2); [lia|].
  destruct (Z.leb_spec 20 (20 - Z.of_nat n)); [lia|].
  destruct (Z.leb_spec 12 (20 - Z.of_nat n)); [|lia].
  destruct (Z.ltb_spec (20 - Z.of_nat n) 20); [|lia].
  cbn [andb].
  replace (Z.to_nat (20 - (20 - Z.of_nat n))) with n by lia.
  rewrite take_app_length' by (by rewrite length_be_bytes).
  rewrite drop_app_length' by (by rewrite length_be_bytes).
  rewrite struct_unpack_Q_padded by lia.
  by rewrite size_limits_lookup by lia.
Qed.

(** An encodable integer packs to a string that decodes back to it and
    leaves what follows untouched. *)
Lemma _encode_decode_int i rest :
  encodable i ->
  exists s, _encode (PyInt i) = Ok s /\ s <> [] /\ _decode (s ++ rest) = Ok (PyInt i, rest).
Proof.
  unfold encodable. intros Hi. cbn [_encode].
  destruct (Z.eqb_spec i 0) as [->|Hne].
  - eexists. split; [done|]. split; [done|]. reflexivity.
  - destruct (Z.ltb_spec 0 i) as [Hpos|Hneg].
    + destruct (bisect_left_size_limits i) as [Hn Hlt]; [lia|].
      rewrite struct_pack_Q_ok by lia. cbn [mbind result_bind].
      rewrite suffix_be_bytes by done.
      eexists. split; [done|]. split; [done|].
      cbn [app]. apply _decode_pos; [done|lia].
    + destruct (bisect_left_size_limits (- i)) as [Hn Hlt]; [lia|].
      assert (256 ^ Z.of_nat (bisect_left _size_limits (- i)) <= 256 ^ 8)
        by (apply Z.pow_le_mono_r; lia).
      rewrite size_limits_lookup by lia.
      rewrite struct_pack_Q_ok by lia. cbn [mbind result_bind].
      rewrite suffix_be_bytes by done.
      eexists. split; [done|]. split; [done|].
      cbn [app]. rewrite _decode_neg by lia. do 3 f_equal. lia.
Qed.

End tuple_facts.

(** ** The adapter inverts itself *)

Lemma pack_singleton x : tuple.pack [x] = (e ← tuple._encode x; Ok e).
Proof.
  cbn [tuple.pack]. destruct (tuple._encode x); [|done].
  cbn. by rewrite app_nil_r.
Qed.

Lemma unpack_one s x :
  s <> [] -> tuple._decode s = Ok (x, []) -> tuple.unpack s = Ok [x].
Proof.
  intros Hs Hd. unfold tuple.unpack. destruct s as [|c s]; [done|].
  cbn [length tuple.unpack_loop]. rewrite Hd. cbn.
  by destruct (length s).
Qed.

Lemma _encode_int_decode i :
  encodable i ->
  exists s, _encode_int i = Ok s /\ _decode_int s = Ok (tuple.PyInt i).
Proof.
  intros Hi. destruct (tuple_facts._encode_decode_int i [] Hi) as (s & He & Hs & Hd).
  exists s. unfold _encode_int, _decode_int. rewrite pack_singleton, He.
  split; [done|]. rewrite app_nil_r in Hd. by rewrite (unpack_one _ _ Hs Hd).
Qed.

Lemma shard_int_value v z : shard_int v = Some z -> shard_value v = z.
Proof. unfold shard_value. by intros ->. Qed.

Lemma shard_int_decode v z : shard_int v = Some z <-> _decode_int v = Ok (tuple.PyInt z).
Proof.
  unfold shard_int. destruct (_decode_int v) as [[]|]; split; intros; by simplify_eq.
Qed.

(** Only encodable integers get encoded. *)
Lemma _encode_int_ok i s : _encode_int i = Ok s -> encodable i.
Proof.
  unfold _encode_int, encodable. rewrite pack_singleton.
  unfold tuple._encode, tuple.struct_pack_Q.
  destruct (Z.eqb_spec i 0) as [->|Hne]; [lia|].
  destruct (Z.ltb_spec 0 i) as [Hpos|Hneg].
  - destruct (Z.leb_spec 0 i), (Z.ltb_spec i (2 ^ 64)); cbn; try done. lia.
  - destruct (tuple._size_limits !! tuple.bisect_left tuple._size_limits (- i))
      as [maxv|] eqn:Hl; [|done].
    assert (maxv <= 2 ^ 64 - 1).
    { revert Hl. generalize (tuple.bisect_left tuple._size_limits (- i)). intros n.
      do 9 (destruct n as [|n]; [intros [= <-]; vm_compute; congruence|]). done. }
    destruct (Z.leb_spec 0 (maxv + i)), (Z.ltb_spec (maxv + i) (2 ^ 64)); cbn; try done.
    lia.
Qed.

Lemma _encode_int_shard_int i s : _encode_int i = Ok s -> shard_int s = Some i.
Proof.
  intros He. destruct (_encode_int_decode i (_encode_int_ok i s He)) as (s' & He' & Hd).
  rewrite He in He'. injection He' as <-. by apply shard_int_decode.
Qed.


(** ** Unpacking uses up its input *)

Lemma _decode_shorter s x s' :
  tuple._decode s = Ok (x, s') -> (length s' < length s)%nat.
Proof.
  unfold tuple._decode, tuple.struct_unpack_Q. destruct s as [|c rest]; [done|].
  cbn [length]. intros H.
  repeat (case_match; simplify_eq/=; try done); rewrite ?length_drop; lia.
Qed.

(** More rounds than bytes change nothing: [unpack] never stops early. *)
Lemma unpack_loop_rounds n m s :
  (length s <= n)%nat -> (length s <= m)%nat ->
  tuple.unpack_loop n s = tuple.unpack_loop m s.
Proof.
  revert m s. induction n as [|n IH]; intros m s Hn Hm.
  - destruct s; [by destruct m|cbn in Hn; lia].
  - destruct s as [|c s]; [by destruct m|].
    destruct m as [|m]; [cbn in Hm; lia|].
    cbn [tuple.unpack_loop].
    destruct (tuple._decode (c :: s)) as [[x s']|e] eqn:Hd; [|done].
    apply _decode_shorter in Hd. cbn [length] in *. cbn.
    by rewrite (IH m s') by lia.
Qed.

(** [unpack] is what the loop [while pos < len(key)] computes: one item,
    then the rest. *)
Lemma unpack_step c s :
  tuple.unpack (c :: s)
  = ('(x, s') ← tuple._decode (c :: s); res ← tuple.unpack s'; Ok (x :: res)).
Proof.
  unfold tuple.unpack. cbn [length tuple.unpack_loop].
  destruct (tuple._decode (c :: s)) as [[x s']|e] eqn:Hd; [|done].
  apply _decode_shorter in Hd. cbn [length] in Hd. cbn.
  by rewrite (unpack_loop_rounds (length s) (length s') s') by lia.
Qed.

(** [fdb.tuple.pack((-1,)) == b'\x13\xfe'], [pack((0,)) == b'\x14'],
    [pack((255,)) == b'\x15\xff'], [pack((256,)) == b'\x16\x01\x00']. *)
Example pack_int_samples :
  _encode_int (-1) = Ok [x13; xfe] /\
  _encode_int 0 = Ok [x14] /\
  _encode_int 255 = Ok [x15; xff] /\
  _encode_int 256 = Ok [x16; x01; x00].
Proof. repeat split. Qed.

(** [fdb.tuple.pack((b'a\x00b',)) == b'\x01a\x00\xffb\x00'] *)
Example pack_bytes_sample :
  tuple.pack [tuple.PyBytes [x61; x00; x62]] = Ok [x01; x61; x00; xff; x62; x00].
Proof. reflexivity. Qed.

(** ** Keys in order *)

Lemma bytes_leb_refl a : bytes_leb a a = true.
Proof.
  induction a as [|x a IH]; [done|]. cbn [bytes_leb].
  rewrite Z.ltb_irrefl, Z.eqb_refl. exact IH.
Qed.

Lemma ord_inj x y : ord x = ord y -> x = y.
Proof.
  unfold ord. intros H. apply N2Z.inj in H.
  apply (f_equal Byte.of_N) in H. rewrite !Byte.of_to_N in H. congruence.
Qed.

Lemma bytes_leb_trans a b c :
  bytes_leb a b = true -> bytes_leb b c = true -> bytes_leb a c = true.
Proof.
  revert b c. induction a as [|x a IH]; intros [|y b] [|z c]; cbn [bytes_leb]; try done.
  destruct (Z.ltb_spec (ord x) (ord y)), (Z.ltb_spec (ord y) (ord z)),
    (Z.ltb_spec (ord x) (ord z)),
    (Z.eqb_spec (ord x) (ord y)), (Z.eqb_spec (ord y) (ord z)),
    (Z.eqb_spec (ord x) (ord z)); try done; try lia.
  apply IH.
Qed.

Lemma bytes_leb_total a b : bytes_leb a b = true \/ bytes_leb b a = true.
Proof.
  revert b. induction a as [|x a IH]; intros [|y b]; cbn [bytes_leb]; auto.
  destruct (Z.ltb_spec (ord x) (ord y)), (Z.ltb_spec (ord y) (ord x)),
    (Z.eqb_spec (ord x) (ord y)), (Z.eqb_spec (ord y) (ord x)); auto; lia.
Qed.

Lemma bytes_leb_antisym a b : bytes_leb a b = true -> bytes_leb b a = true -> a = b.
Proof.
  revert b. induction a as [|x a IH]; intros [|y b]; cbn [bytes_leb]; try done.
  destruct (Z.ltb_spec (ord x) (ord y)), (Z.ltb_spec (ord y) (ord x)),
    (Z.eqb_spec (ord x) (ord y)), (Z.eqb_spec (ord y) (ord x)); try done; try lia.
  intros. f_equal; [by apply ord_inj|by apply IH].
Qed.

Lemma bytes_ltb_leb a b : bytes_ltb a b = true -> bytes_leb a b = true.
Proof.
  unfold bytes_ltb. destruct (bytes_leb_total a b) as [H|H]; [done|].
  by rewrite H.
Qed.

Lemma bytes_leb_app p a b : bytes_leb (p ++ a) (p ++ b) = bytes_leb a b.
Proof.
  induction p as [|x p IH]; [done|]. cbn [app bytes_leb].
  by rewrite Z.ltb_irrefl, Z.eqb_refl.
Qed.

(** ** Keys and ranges *)

Lemma Subspace_pack_bytes s rid :
  Subspace.pack s [tuple.PyBytes rid] = Ok (shard_key s rid).
Proof.
  unfold Subspace.pack, shard_key. rewrite pack_singleton. reflexivity.
Qed.

Lemma shard_key_in_range s rid :
  in_range (Subspace.range s).1 (Subspace.range s).2 (shard_key s rid) = true.
Proof.
  unfold in_range, bytes_ltb, shard_key, Subspace.range. cbn [fst snd].
  rewrite !bytes_leb_app. reflexivity.
Qed.

Lemma in_range_weaken_start a a' b k :
  bytes_leb a a' = true -> in_range a' b k = true -> in_range a b k = true.
Proof.
  unfold in_range. intros Ha [H1 H2]%andb_prop.
  by rewrite (bytes_leb_trans _ _ _ Ha H1), H2.
Qed.

Lemma in_range_weaken_stop a b b' k :
  bytes_leb b' b = true -> in_range a b' k = true -> in_range a b k = true.
Proof.
  unfold in_range, bytes_ltb. intros Hb [H1 H2]%andb_prop.
  rewrite H1. cbn. destruct (bytes_leb b k) eqn:E; [|done].
  by rewrite (bytes_leb_trans _ _ _ Hb E) in H2.
Qed.

(** ** Range reads *)

(** A range read returns part of the entries of the range, each once. *)
Lemma range_scan_split d start stop limit rev :
  exists rest,
    range_scan d start stop limit rev ++ rest ≡ₚ map_to_list (range_entries start stop d).
Proof.
  unfold range_scan.
  set (hits := merge_sort key_le (map_to_list (range_entries start stop d))).
  assert (Hhits : hits ≡ₚ map_to_list (range_entries start stop d))
    by apply merge_sort_Permutation.
  assert (Hord : (if rev then reverse hits else hits)
                 ≡ₚ map_to_list (range_entries start stop d)).
  { destruct rev; [by rewrite reverse_Permutation|done]. }
  destruct (limit =? 0)%nat.
  - exists []. by rewrite app_nil_r.
  - exists (drop limit (if rev then reverse hits else hits)). by rewrite take_drop.
Qed.

Lemma range_scan_all d start stop :
  range_scan d start stop 0 false ≡ₚ map_to_list (range_entries start stop d).
Proof. unfold range_scan. cbn. apply merge_sort_Permutation. Qed.

Lemma range_scan_NoDup d start stop limit rev :
  NoDup (range_scan d start stop limit rev).*1.
Proof.
  destruct (range_scan_split d start stop limit rev) as [rest Hp].
  pose proof (NoDup_fst_map_to_list (range_entries start stop d)) as Hnd.
  rewrite <- Hp, fmap_app in Hnd. by apply NoDup_app in Hnd as [? _].
Qed.

Lemma range_scan_elem d start stop limit rev k v :
  (k, v) ∈ range_scan d start stop limit rev ->
  d !! k = Some v /\ in_range start stop k = true.
Proof.
  intros Hin. destruct (range_scan_split d start stop limit rev) as [rest Hp].
  assert (Hm : (k, v) ∈ map_to_list (range_entries start stop d)).
  { rewrite <- Hp. apply elem_of_app. by left. }
  apply elem_of_map_to_list in Hm. unfold range_entries in Hm.
  by apply map_lookup_filter_Some in Hm.
Qed.

Lemma key_le_trans : Transitive key_le.
Proof. intros x y z. unfold key_le. apply bytes_leb_trans. Qed.

Lemma key_le_total : Total key_le.
Proof. intros x y. unfold key_le. apply bytes_leb_total. Qed.

Lemma StronglySorted_reverse {A} (R : relation A) l :
  StronglySorted R l -> StronglySorted (flip R) (reverse l).
Proof.
  induction 1 as [|x l Hl IH Hx]; [constructor|].
  rewrite reverse_cons. apply StronglySorted_app. split; [|split; [done|]].
  - intros x1 x2 Hx1 ->%list_elem_of_singleton. rewrite Forall_forall in Hx.
    apply Hx. by apply elem_of_reverse.
  - repeat constructor.
Qed.

(** A range read with a limit returns the entries nearest to where it
    starts: every entry of the range it leaves out comes after all it returns
    (before them, for a reverse read). *)
Lemma range_scan_nearest d start stop limit rev :
  exists rest,
    range_scan d start stop limit rev ++ rest ≡ₚ map_to_list (range_entries start stop d) /\
    forall x y, x ∈ range_scan d start stop limit rev -> y ∈ rest ->
      if rev then key_le y x else key_le x y.
Proof.
  unfold range_scan.
  set (hits := merge_sort key_le (map_to_list (range_entries start stop d))).
  assert (Hp : hits ≡ₚ map_to_list (range_entries start stop d))
    by apply merge_sort_Permutation.
  assert (Hs : StronglySorted key_le hits)
    by apply (@StronglySorted_merge_sort _ key_le _ key_le_trans key_le_total).
  destruct (limit =? 0)%nat.
  { exists []. split; [rewrite app_nil_r; destruct rev; by rewrite ?reverse_Permutation|].
    intros x y _ Hy. by apply elem_of_nil in Hy. }
  destruct rev.
  - exists (drop limit (reverse hits)). rewrite take_drop. split; [by rewrite reverse_Permutation|].
    intros x y Hx Hy. apply StronglySorted_reverse in Hs.
    rewrite <- (take_drop limit (reverse hits)) in Hs.
    apply (StronglySorted_app_1_elem_of _ _ _ x y Hs Hx Hy).
  - exists (drop limit hits). rewrite take_drop. split; [done|].
    intros x y Hx Hy. rewrite <- (take_drop limit hits) in Hs.
    apply (StronglySorted_app_1_elem_of _ _ _ x y Hs Hx Hy).
Qed.

(** The window of [_coalesce] lies inside the namespace. *)
Lemma scan_window_elem self N d rid r k v :
  (k, v) ∈ scan_window self N d rid r ->
  d !! k = Some v /\
  in_range (Subspace.range (subspace self)).1 (Subspace.range (subspace self)).2 k = true.
Proof.
  unfold scan_window. pose proof (shard_key_in_range (subspace self) rid) as Hk.
  apply andb_prop in Hk as [Hlo Hhi].
  destruct (Qltb r (1 # 2)); intros [Hd Hr]%range_scan_elem; (split; [done|]).
  - by apply (in_range_weaken_start _ _ _ _ Hlo).
  - apply (in_range_weaken_stop _ _ _ _ (bytes_ltb_leb _ _ Hhi) Hr).
Qed.

Lemma scan_window_NoDup self N d rid r : NoDup (scan_window self N d rid r).*1.
Proof. unfold scan_window. destruct (Qltb r (1 # 2)); apply range_scan_NoDup. Qed.

(** ** Sums over shards *)

Lemma sum_values_Permutation l1 l2 : l1 ≡ₚ l2 -> sum_values l1 = sum_values l2.
Proof.
  unfold sum_values. induction 1 as [|x l l' _ IH|x y l|l l' l'' _ IH1 _ IH2]; cbn.
  - done.
  - by rewrite IH.
  - lia.
  - by rewrite IH1.
Qed.

Lemma shard_sum_insert self d k v :
  d !! k = None ->
  in_range (Subspace.range (subspace self)).1 (Subspace.range (subspace self)).2 k = true ->
  shard_sum self (<[k:=v]> d) = shard_sum self d + shard_value v.
Proof.
  intros Hk Hr. unfold shard_sum, shards, range_entries.
  rewrite map_filter_insert_True by done.
  erewrite sum_values_Permutation; [|apply map_to_list_insert].
  - unfold sum_values. cbn. lia.
  - apply map_lookup_filter_None. by left.
Qed.

Lemma shard_sum_delete self d k v :
  d !! k = Some v ->
  in_range (Subspace.range (subspace self)).1 (Subspace.range (subspace self)).2 k = true ->
  shard_sum self (delete k d) + shard_value v = shard_sum self d.
Proof.
  intros Hk Hr. unfold shard_sum, shards, range_entries.
  rewrite map_filter_delete.
  match goal with |- context [delete k ?m] =>
    assert (Hs : m !! k = Some v) by (by apply map_lookup_filter_Some);
    rewrite <- (sum_values_Permutation _ _ (map_to_list_delete m k v Hs))
  end.
  unfold sum_values. cbn. lia.
Qed.

Lemma shard_count_insert self d k v :
  d !! k = None ->
  in_range (Subspace.range (subspace self)).1 (Subspace.range (subspace self)).2 k = true ->
  shard_count self (<[k:=v]> d) = S (shard_count self d).
Proof.
  intros Hk Hr. unfold shard_count, shards, range_entries.
  rewrite map_filter_insert_True by done.
  apply map_size_insert_None, map_lookup_filter_None. by left.
Qed.

Lemma shard_count_delete self d k v :
  d !! k = Some v ->
  in_range (Subspace.range (subspace self)).1 (Subspace.range (subspace self)).2 k = true ->
  S (shard_count self (delete k d)) = shard_count self d.
Proof.
  intros Hk Hr. unfold shard_count, shards, range_entries.
  rewrite map_filter_delete.
  match goal with |- context [delete k ?m] =>
    assert (Hs : m !! k = Some v) by (by apply map_lookup_filter_Some);
    rewrite (map_size_delete_Some k m (mk_is_Some _ _ Hs));
    assert (size m ≠ 0%nat) by (intros H0%map_size_empty_inv; by rewrite H0 in Hs)
  end.
  lia.
Qed.

(** ** Exceptions of the adapter *)

Lemma _decode_not_FDBError s e : tuple._decode s = Raise e -> not_FDBError e.
Proof.
  unfold tuple._decode, tuple.struct_unpack_Q. intros H c ->.
  destruct s as [|b s]; [done|].
  repeat (case_match; simplify_eq/=; try done).
Qed.

Lemma unpack_loop_not_FDBError n s e :
  tuple.unpack_loop n s = Raise e -> not_FDBError e.
Proof.
  revert s. induction n as [|n IH]; intros s; destruct s as [|b s];
    cbn [tuple.unpack_loop]; try done.
  destruct (tuple._decode (b :: s)) as [[x s']|e'] eqn:Hd; cbn.
  - destruct (tuple.unpack_loop n s') as [|e''] eqn:Hl; cbn; [done|].
    intros [= <-]. by eapply IH.
  - intros [= <-]. by eapply _decode_not_FDBError.
Qed.

Lemma _decode_int_not_FDBError s e : _decode_int s = Raise e -> not_FDBError e.
Proof.
  unfold _decode_int, tuple.unpack.
  destruct (tuple.unpack_loop (length s) s) as [t|e'] eqn:Hl; cbn.
  - destruct (t !! 0%nat); [done|]. by intros [= <-] c.
  - intros [= <-]. by eapply unpack_loop_not_FDBError.
Qed.

Lemma _encode_int_not_FDBError i e : _encode_int i = Raise e -> not_FDBError e.
Proof.
  unfold _encode_int. rewrite pack_singleton. unfold tuple._encode, tuple.struct_pack_Q.
  intros H c ->. repeat (case_match; simplify_eq/=; try done).
Qed.

Lemma iadd_not_FDBError total x e : iadd total x = Raise e -> not_FDBError e.
Proof. destruct x; cbn; try done; by intros [= <-] c. Qed.

Lemma iadd_ok total x z : iadd total x = Ok z -> exists y, x = tuple.PyInt y /\ z = total + y.
Proof. destruct x; cbn; try done. intros [= <-]. eauto. Qed.

(** ** Running the code *)

Lemma set_heap_same w : set_heap (heap w) w = w.
Proof. by destruct w. Qed.

(** The loop of [_coalesce] touches its own transaction only; it ends with
    the total when every entry holds an integer, and with an exception that
    is not an [FDBError] otherwise. *)
Lemma coalesce_loop_run tr l total w :
  exists r f,
    coalesce_loop tr l total w = (r, set_heap (alter f tr (heap w)) w) /\
    ((ints l /\ r = Ok (total + sum_values l) /\ forall t, f t = loop_tr l t)
     \/ (~ ints l /\ exists e, r = Raise e /\ not_FDBError e)).
Proof.
  revert total w. induction l as [|[k v] l IH]; intros total w.
  - exists (Ok total), id. split.
    + cbn. by rewrite list_alter_id, set_heap_same.
    + left. split; [constructor|]. split; [cbn; f_equal; lia|].
      intros []. unfold loop_tr; cbn. by rewrite !app_nil_r.
  - cbn [coalesce_loop]. unfold mbind at 1, M_bind, lift at 1.
    destruct (_decode_int v) as [x|e] eqn:Hd.
    2:{ exists (Raise e), id. split.
        - by rewrite list_alter_id, set_heap_same.
        - right. split.
          + intros Hi. inversion Hi as [|? ? [z Hz]]; subst.
            apply shard_int_decode in Hz. cbn [snd] in Hz. congruence.
          + eexists. split; [done|]. by eapply _decode_int_not_FDBError. }
    unfold mbind at 1, M_bind, lift at 1.
    destruct (iadd total x) as [total'|e] eqn:Ha.
    2:{ exists (Raise e), id. split.
        - by rewrite list_alter_id, set_heap_same.
        - right. split.
          + intros Hi. inversion Hi as [|? ? [z Hz]]; subst.
            apply shard_int_decode in Hz. cbn [snd] in Hz. rewrite Hz in Hd.
            injection Hd as <-. done.
          + eexists. split; [done|]. by eapply iadd_not_FDBError. }
    apply iadd_ok in Ha as (y & -> & ->).
    unfold tr_get, tr_clear, update_tr, act, mbind, M_bind, mret, M_ret. cbn beta iota.
    match goal with |- context [coalesce_loop tr l ?t ?w0] =>
      destruct (IH t w0) as (r & f & Hrun & Hcase) end.
    exists r, (f ∘ add_mutation (MClear k) ∘ add_read_key k).
    split.
    + rewrite Hrun. cbn. by rewrite !list_alter_alter_eq.
    + destruct Hcase as [(Hi & -> & Hf)|(Hi & e & -> & He)].
      * left. split; [|split].
        -- constructor; [|done]. cbn. exists y. by apply shard_int_decode.
        -- unfold sum_values. cbn [foldr snd]. fold (sum_values l).
           rewrite (shard_int_value v y) by (by apply shard_int_decode).
           f_equal. lia.
        -- intros t. cbn. rewrite Hf. unfold loop_tr, add_mutation, add_read_key. cbn.
           by rewrite <- !app_assoc.
      * right. split; [|eauto]. intros Hi'. apply Hi. by inversion Hi'.
Qed.

Ltac proj :=
  cbn [heap database committing faults urandom_src random_src
       set_heap set_faults set_urandom_src set_random_src set_committing
       fst snd mret M_ret].

Lemma run_bind {A B} (m : M A) (f : A -> M B) w :
  (m ≫= f) w = match m w with
               | (Ok a, w') => f a w'
               | (Raise e, w') => (Raise e, w')
               end.
Proof. reflexivity. Qed.

Lemma run_lift {A} (r : result A) w : lift r w = (r, w).
Proof. reflexivity. Qed.

Lemma run_lift_ok {A B} (a : A) (f : A -> M B) w : (lift (Ok a) ≫= f) w = f a w.
Proof. reflexivity. Qed.

Lemma run_randID {B} (f : bytes -> M B) w :
  (randID ≫= f) w
  = f (next_urandom 0 20 w) (set_urandom_src (fun i => urandom_src w (20 + i)%nat) w).
Proof. reflexivity. Qed.

Lemma run_random {B} (f : Q -> M B) w :
  (random_random ≫= f) w
  = f (random_src w 0%nat) (set_random_src (fun i => random_src w (S i)) w).
Proof. reflexivity. Qed.

Lemma run_create_transaction {B} (f : nat -> M B) w :
  (create_transaction ≫= f) w
  = match faults w 0%nat with
    | Some c => (Raise (FDBError c), set_faults (fun i => faults w (S i)) w)
    | None =>
        f (length (heap w))
          (set_heap (heap w ++ [mkTransaction (database w) [] [] [] false])
             (set_faults (fun i => faults w (S i)) w))
    end.
Proof.
  unfold create_transaction, store_call, act, mbind, M_bind.
  by destruct (faults w 0%nat).
Qed.

Lemma the_tr_new hp t w : the_tr (length hp) (set_heap (hp ++ [t]) w) = t.
Proof. unfold the_tr. cbn. by rewrite list_lookup_middle. Qed.

(** The range read of [_coalesce], in either direction. *)
Lemma scan_step_run self N tr rid r w :
  (if Qltb r (1 # 2)
   then snapshot_get_range tr (shard_key (subspace self) rid)
          (Subspace.range (subspace self)).2 N false
   else snapshot_get_range tr (Subspace.range (subspace self)).1
          (shard_key (subspace self) rid) N true) w
  = (match faults w 0%nat with
     | Some c => Raise (FDBError c)
     | None => Ok (scan_window self N (snapshot_view (the_tr tr w)) rid r)
     end, set_faults (fun i => faults w (S i)) w).
Proof.
  unfold scan_window, snapshot_get_range, store_call, act, mbind, M_bind.
  destruct (Qltb r (1 # 2)); by destruct (faults w 0%nat).
Qed.

Lemma _coalesce_run self N w :
  coalesce_outcome self N w (_coalesce self N w).1 (_coalesce self N w).2
  /\ database (_coalesce self N w).2 = database w
  /\ forall h, (h < length (heap w))%nat -> heap (_coalesce self N w).2 !! h = heap w !! h.
Proof.
  unfold _coalesce. rewrite run_create_transaction.
  destruct (faults w 0%nat) as [c|] eqn:F0.
  { split; [|done]. by eapply co_no_transaction. }
  unfold try_except_FDBError.
  rewrite run_randID, Subspace_pack_bytes, run_lift_ok, run_random, run_bind, scan_step_run.
  proj.
  destruct (faults w 1%nat) as [c|] eqn:F1.
  { split; [by eapply co_scan_failed|]. split; [done|].
    intros h Hh. proj. by rewrite lookup_app_l. }
  match goal with |- context [the_tr (length ?hp) ?w0] =>
    change (the_tr (length hp) w0) with (the_tr (length hp) (set_heap (hp ++ [mkTransaction (database w) [] [] [] false]) w0)) end.
  rewrite the_tr_new. unfold snapshot_view. cbn [snapshot_ryw base].
  set (win := scan_window self N (database w) (next_urandom 0 20 w) (random_src w 0%nat)).
  rewrite run_bind.
  match goal with |- context [coalesce_loop ?tr ?l 0 ?w0] =>
    change l with win;
    destruct (coalesce_loop_run tr win 0 w0) as (r & f & -> & Hcase) end.
  destruct Hcase as [(Hi & -> & Hf)|(Hi & e & -> & He)].
  2:{ destruct e; try (by exfalso; eapply He);
      (split; [by eapply co_not_an_integer|]; split; [done|];
       intros h Hh; proj; rewrite list_lookup_alter_ne by lia; by rewrite lookup_app_l). }
  rewrite Z.add_0_l, run_bind, run_lift.
  destruct (_encode_int (sum_values win)) as [v|e] eqn:Hv.
  2:{ pose proof (_encode_int_not_FDBError _ _ Hv) as He.
      destruct e; try (by exfalso; eapply He);
      (split; [by eapply co_not_encodable|]; split; [done|];
       intros h Hh; proj; rewrite list_lookup_alter_ne by lia; by rewrite lookup_app_l). }
  rewrite run_randID, Subspace_pack_bytes, run_lift_ok.
  unfold tr_set, tr_commit, update_tr, mbind, M_bind. proj.
  split; [|split].
  - eapply co_committing; try done.
    proj. rewrite list_alter_alter_eq, list_lookup_alter_eq, list_lookup_middle by done.
    cbn [fmap option_fmap option_map compose]. by rewrite Hf.
  - done.
  - intros h Hh. proj. rewrite !list_lookup_alter_ne by lia. by rewrite lookup_app_l.
Qed.

(** ** Committing *)

Lemma apply_mutations_app ms1 ms2 d :
  apply_mutations (ms1 ++ ms2) d = apply_mutations ms2 (apply_mutations ms1 d).
Proof. unfold apply_mutations. apply foldl_app. Qed.

Lemma apply_clears ks d :
  apply_mutations (MClear <$> ks) d = foldr delete d (reverse ks).
Proof.
  revert d. induction ks as [|k ks IH]; intros d; [done|].
  rewrite reverse_cons, foldr_app. cbn. apply IH.
Qed.

Lemma apply_clears_lookup_ne ks d k :
  k ∉ ks -> apply_mutations (MClear <$> ks) d !! k = d !! k.
Proof.
  revert d. induction ks as [|k' ks IH]; intros d Hk; [done|].
  apply not_elem_of_cons in Hk as [Hne Hk]. cbn.
  change (foldl apply_mutation (delete k' d) (MClear <$> ks))
    with (apply_mutations (MClear <$> ks) (delete k' d)).
  rewrite IH by done. by apply lookup_delete_ne.
Qed.

Lemma apply_clears_lookup ks d k :
  k ∈ ks -> apply_mutations (MClear <$> ks) d !! k = None.
Proof.
  revert d. induction ks as [|k' ks IH]; intros d Hk; [by apply elem_of_nil in Hk|].
  cbn. change (foldl apply_mutation (delete k' d) (MClear <$> ks))
    with (apply_mutations (MClear <$> ks) (delete k' d)).
  destruct (decide (k ∈ ks)) as [Hin|Hnin]; [by apply IH|].
  apply elem_of_cons in Hk as [->|Hk]; [|done].
  rewrite apply_clears_lookup_ne by done. apply lookup_delete_eq.
Qed.

(** Clearing shards that are there takes their values off the sum and
    their number off the count. *)
Lemma apply_clears_shards self l d :
  NoDup l.*1 ->
  (forall k v, (k, v) ∈ l ->
     d !! k = Some v /\
     in_range (Subspace.range (subspace self)).1 (Subspace.range (subspace self)).2 k = true) ->
  shard_sum self (apply_mutations (MClear <$> l.*1) d) + sum_values l = shard_sum self d
  /\ (shard_count self (apply_mutations (MClear <$> l.*1) d) + length l)%nat
     = shard_count self d.
Proof.
  revert d. induction l as [|[k v] l IH]; intros d Hnd Hl.
  - cbn. split; [lia|done].
  - cbn [fmap list_fmap fst] in *. apply NoDup_cons in Hnd as [Hk Hnd].
    destruct (Hl k v) as [Hkv Hr]; [by left|].
    cbn [apply_mutations foldl apply_mutation].
    change (foldl apply_mutation (delete k d) (MClear <$> l.*1))
      with (apply_mutations (MClear <$> l.*1) (delete k d)).
    destruct (IH (delete k d) Hnd) as [IHs IHc].
    { intros k' v' Hin. destruct (Hl k' v') as [Hkv' Hr']; [by right|].
      split; [|done]. rewrite lookup_delete_ne; [done|].
      intros <-. apply Hk. apply list_elem_of_fmap. by exists (k, v'). }
    pose proof (shard_sum_delete self d k v Hkv Hr).
    pose proof (shard_count_delete self d k v Hkv Hr).
    unfold sum_values in *. cbn [foldr snd length]. split; lia.
Qed.

Lemma values_at_window d l :
  (forall k v, (k, v) ∈ l -> d !! k = Some v) -> values_at d l.*1 = l.
Proof.
  unfold values_at. induction l as [|[k v] l IH]; intros Hl; [done|].
  cbn. rewrite (Hl k v) by (by left). cbn. f_equal. apply IH.
  intros k' v' Hin. apply Hl. by right.
Qed.

Lemma cleared_app_clears ks ms t :
  mutations t = (MClear <$> ks) ++ ms ->
  cleared t = ks ++ omap (fun m => match m with MClear k => Some k | _ => None end) ms.
Proof.
  unfold cleared. intros ->. rewrite omap_app. f_equal.
  induction ks as [|k ks IH]; [done|]. cbn. by rewrite IH.
Qed.

Lemma written_app_clears ks ms t :
  mutations t = (MClear <$> ks) ++ ms ->
  written t = omap (fun m => match m with MSet k v => Some (k, v) | _ => None end) ms.
Proof.
  unfold written. intros ->. rewrite omap_app.
  replace (omap _ (MClear <$> ks)) with (@nil (bytes * bytes)); [done|].
  induction ks as [|k ks IH]; [done|]. cbn. by rewrite <- IH.
Qed.

Lemma conflict_free_read_keys d t k :
  conflict_free d t = true -> k ∈ read_keys t -> d !! k = base t !! k.
Proof.
  unfold conflict_free. intros [Hk _]%andb_prop Hin.
  rewrite forallb_forall in Hk. apply list_elem_of_In in Hin.
  by apply Hk, bool_decide_eq_true in Hin.
Qed.

Lemma conflict_free_same t : conflict_free (base t) t = true.
Proof.
  unfold conflict_free. apply andb_true_intro. split; apply forallb_forall; intros;
    by apply bool_decide_eq_true.
Qed.

(** What a committed coalescing pass does to the database it commits to:
    the window is still there as it was read, and is cleared; when the new key
    is not in use the sum and the count change as they should. *)
Lemma coalesce_commit self d0 win newk v d' d'' :
  let t := mkTransaction d0 ((MClear <$> win.*1) ++ [MSet newk v]) win.*1 [] false in
  NoDup win.*1 ->
  (forall k v, (k, v) ∈ win ->
     d0 !! k = Some v /\
     in_range (Subspace.range (subspace self)).1 (Subspace.range (subspace self)).2 k = true) ->
  in_range (Subspace.range (subspace self)).1 (Subspace.range (subspace self)).2 newk = true ->
  commit_outcome d' t = Some d'' ->
  (forall k v, (k, v) ∈ win -> d' !! k = Some v)
  /\ values_at d' (cleared t) = win
  /\ d'' = <[newk:=v]> (foldr delete d' (reverse (cleared t)))
  /\ (d' !! newk = None ->
      shard_sum self d'' + sum_values win = shard_sum self d' + shard_value v
      /\ (shard_count self d'' + length win)%nat = S (shard_count self d')).
Proof.
  intros t Hnd Hwin Hnewk Hc. unfold commit_outcome in Hc.
  destruct (conflict_free d' t) eqn:Hcf; [|done]. injection Hc as <-.
  assert (Hcl : cleared t = win.*1).
  { rewrite (cleared_app_clears win.*1 [MSet newk v]) by done. cbn. apply app_nil_r. }
  assert (Hd' : forall k v, (k, v) ∈ win ->
            d' !! k = Some v /\
            in_range (Subspace.range (subspace self)).1
              (Subspace.range (subspace self)).2 k = true).
  { intros k vk Hin. destruct (Hwin k vk Hin) as [Hk Hr]. split; [|done].
    rewrite (conflict_free_read_keys d' t k Hcf); [done|].
    cbn. apply list_elem_of_fmap. by exists (k, vk). }
  destruct (apply_clears_shards self win d' Hnd Hd') as [Hs Hn].
  cbn [mutations t]. rewrite apply_mutations_app. cbn [apply_mutations foldl apply_mutation].
  fold (apply_mutations (MClear <$> win.*1) d').
  split; [|split; [|split]].
  - intros k vk Hin. by apply Hd'.
  - rewrite Hcl. apply values_at_window. intros k vk Hin. by apply Hd'.
  - by rewrite Hcl, <- apply_clears.
  - intros Hfresh.
    assert (Hnone : apply_mutations (MClear <$> win.*1) d' !! newk = None).
    { destruct (decide (newk ∈ win.*1)); [by apply apply_clears_lookup|].
      by rewrite apply_clears_lookup_ne. }
    rewrite shard_sum_insert, shard_count_insert by done. lia.
Qed.

(** ** The coalescing pass *)

Lemma committing_grew (c : list nat) h : c <> c ++ [h].
Proof. intros H. apply (f_equal length) in H. rewrite length_app in H. cbn in H. lia. Qed.

(** A pass that issued its commit got through both store calls, found
    integers only, and built the transaction that clears its window and
    sets one new shard to the window's total. *)
Lemma _coalesce_committing self N w :
  let win := scan_window self N (database w) (next_urandom 0 20 w) (random_src w 0%nat) in
  committing (_coalesce self N w).2 = committing w ++ [length (heap w)] ->
  exists v,
    (_coalesce self N w).1 = Ok tt /\
    ints win /\
    _encode_int (sum_values win) = Ok v /\
    the_tr (length (heap w)) (_coalesce self N w).2
    = mkTransaction (database w)
        ((MClear <$> win.*1) ++ [MSet (shard_key (subspace self) (next_urandom 20 20 w)) v])
        win.*1 [] false.
Proof.
  intros win Hc. destruct (_coalesce_run self N w) as [Hout _].
  inversion Hout as [c w' F0 Hc' | c w' F0 F1 Hc' | e w' F0 F1 Hi He Hc'
                    | e w' F0 F1 Hi Hv He Hc' | v w' win' F0 F1 Hi Hv Hc' Hh];
    try (rewrite Hc in Hc'; symmetry in Hc'; by apply committing_grew in Hc').
  exists v. split; [done|]. split; [done|]. split; [done|].
  unfold the_tr. by rewrite Hh.
Qed.

(** Conversely, such a pass does issue its commit. *)
Lemma _coalesce_commits self N w :
  let win := scan_window self N (database w) (next_urandom 0 20 w) (random_src w 0%nat) in
  faults w 0%nat = None -> faults w 1%nat = None ->
  ints win -> encodable (sum_values win) ->
  (_coalesce self N w).1 = Ok tt /\
  committing (_coalesce self N w).2 = committing w ++ [length (heap w)].
Proof.
  intros win G0 G1 Gi Ge. destruct (_coalesce_run self N w) as [Hout _].
  destruct (_encode_int_decode _ Ge) as (s & Hs & _).
  inversion Hout as [c w' F0 Hc' | c w' F0 F1 Hc' | e w' F0 F1 Hi He Hc'
                    | e w' F0 F1 Hi Hv He Hc' | v w' win' F0 F1 Hi Hv Hc' Hh];
    try congruence; try done.
  fold win in Hv. congruence.
Qed.

Lemma window_facts self N d rid r :
  let win := scan_window self N d rid r in
  NoDup win.*1 /\
  forall k v, (k, v) ∈ win ->
    d !! k = Some v /\
    in_range (Subspace.range (subspace self)).1 (Subspace.range (subspace self)).2 k = true.
Proof.
  split; [apply scan_window_NoDup|]. intros k v. apply scan_window_elem.
Qed.

(** C1.  Coalescing preserves the sum.  Whatever the database, the draws
    and the window: when a [_coalesce] pass issues its commit and the commit
    goes through (on a database [d'] that may have moved on since the pass
    read it), the pass wrote exactly one shard, whose value is the sum of the
    values [d'] holds at the keys the pass cleared, and the sum of all shards
    is the same after the commit as before.  For the sum, the key of the new
    shard has to be one not in use: the code takes it from the random data of
    the OS, relying on it to avoid collisions. *)
Theorem coalesce_preserves_sum self N w d' d'' :
  let w' := (_coalesce self N w).2 in
  let t := the_tr (length (heap w)) w' in
  let newk := shard_key (subspace self) (next_urandom 20 20 w) in
  committing w' = committing w ++ [length (heap w)] ->
  commit_outcome d' t = Some d'' ->
  exists v,
    written t = [(newk, v)] /\
    shard_int v = Some (sum_values (values_at d' (cleared t))) /\
    (d' !! newk = None -> shard_sum self d'' = shard_sum self d').
Proof.
  intros w' t newk Hc Hcommit.
  destruct (_coalesce_committing self N w Hc) as (v & _ & Hi & Hv & Ht).
  fold w' t newk in Ht.
  set (win := scan_window self N (database w) (next_urandom 0 20 w) (random_src w 0%nat)) in *.
  destruct (window_facts self N (database w) (next_urandom 0 20 w) (random_src w 0%nat))
    as [Hnd Hwin]. fold win in Hnd, Hwin.
  rewrite Ht in Hcommit.
  destruct (coalesce_commit self (database w) win newk v d' d'' Hnd Hwin
              (shard_key_in_range _ _) Hcommit) as (_ & Hva & _ & Hs).
  rewrite <- Ht in Hva.
  exists v. split; [|split].
  - rewrite Ht. by rewrite (written_app_clears win.*1 [MSet newk v]).
  - rewrite Hva. by apply _encode_int_shard_int.
  - intros Hfresh. destruct (Hs Hfresh) as [Hsum _].
    rewrite (shard_int_value v _ (_encode_int_shard_int _ _ Hv)) in Hsum. lia.
Qed.

(** C8.  Coalescing reduces the shard count.  When a pass over a window of
    [n >= 1] shards issues its commit and the commit goes through, the [n]
    window shards are gone, one new shard is there, every other key is as it
    was, and the namespace holds [n - 1] shards fewer (the new key being
    unused before). *)
Theorem coalesce_reduces_count self N w d' d'' :
  let w' := (_coalesce self N w).2 in
  let t := the_tr (length (heap w)) w' in
  let newk := shard_key (subspace self) (next_urandom 20 20 w) in
  let win := scan_window self N (database w) (next_urandom 0 20 w) (random_src w 0%nat) in
  committing w' = committing w ++ [length (heap w)] ->
  commit_outcome d' t = Some d'' ->
  d' !! newk = None ->
  (1 <= length win)%nat ->
  cleared t = win.*1 /\
  (forall k, k ∈ win.*1 -> is_Some (d' !! k) /\ d'' !! k = None) /\
  is_Some (d'' !! newk) /\
  (forall k, k ∉ win.*1 -> k <> newk -> d'' !! k = d' !! k) /\
  shard_count self d'' = (shard_count self d' - (length win - 1))%nat.
Proof.
  intros w' t newk win Hc Hcommit Hfresh Hn.
  destruct (_coalesce_committing self N w Hc) as (v & _ & Hi & Hv & Ht).
  fold w' t newk win in Ht.
  destruct (window_facts self N (database w) (next_urandom 0 20 w) (random_src w 0%nat))
    as [Hnd Hwin]. fold win in Hnd, Hwin.
  rewrite Ht in Hcommit.
  destruct (coalesce_commit self (database w) win newk v d' d'' Hnd Hwin
              (shard_key_in_range _ _) Hcommit) as (Hd' & Hva & Hd'' & Hfr).
  destruct (Hfr Hfresh) as [_ Hcount].
  assert (Hcl : cleared t = win.*1).
  { rewrite Ht, (cleared_app_clears win.*1 [MSet newk v]) by done. cbn. apply app_nil_r. }
  rewrite <- Ht in Hva, Hd''. rewrite Hcl, <- apply_clears in Hd''.
  assert (Hin_d' : forall k, k ∈ win.*1 -> is_Some (d' !! k)).
  { intros k Hk. apply list_elem_of_fmap in Hk as ([k' v'] & -> & Hk).
    cbn. by rewrite (Hd' k' v' Hk). }
  split; [done|]. split; [|split; [|split]].
  - intros k Hk. split; [by apply Hin_d'|].
    rewrite Hd''. rewrite lookup_insert_ne.
    + by apply apply_clears_lookup.
    + intros <-. destruct (Hin_d' newk Hk) as [? ?]. congruence.
  - rewrite Hd''. rewrite lookup_insert_eq. by eexists.
  - intros k Hk Hne. rewrite Hd''. rewrite lookup_insert_ne by done.
    by apply apply_clears_lookup_ne.
  - lia.
Qed.

(** C10.  An empty window still gets a shard.  When the scan of a pass
    returns no entries (and neither store call fails), the pass returns
    normally having issued the commit of a transaction that clears nothing,
    reads nothing and sets one new shard of value 0; committed to a database
    where the new key is unused, it adds one shard and leaves the sum as it
    was. *)
Theorem coalesce_empty_window self N w :
  let w' := (_coalesce self N w).2 in
  let t := the_tr (length (heap w)) w' in
  let newk := shard_key (subspace self) (next_urandom 20 20 w) in
  faults w 0%nat = None ->
  faults w 1%nat = None ->
  scan_window self N (database w) (next_urandom 0 20 w) (random_src w 0%nat) = [] ->
  (_coalesce self N w).1 = Ok tt /\
  committing w' = committing w ++ [length (heap w)] /\
  exists v,
    mutations t = [MSet newk v] /\
    read_keys t = [] /\
    _decode_int v = Ok (tuple.PyInt 0) /\
    forall d', d' !! newk = None ->
      commit_outcome d' t = Some (<[newk:=v]> d') /\
      shard_count self (<[newk:=v]> d') = S (shard_count self d') /\
      shard_sum self (<[newk:=v]> d') = shard_sum self d'.
Proof.
  intros w' t newk F0 F1 Hwin.
  destruct (_coalesce_commits self N w F0 F1) as [Hr Hc].
  { rewrite Hwin. constructor. }
  { rewrite Hwin. unfold encodable. cbn. lia. }
  destruct (_coalesce_committing self N w Hc) as (v & _ & _ & Hv & Ht).
  fold w' t newk in Ht. rewrite Hwin in Hv, Ht. cbn in Ht.
  split; [done|]. split; [done|]. exists v. rewrite Ht. cbn [mutations read_keys].
  pose proof (_encode_int_shard_int _ _ Hv) as Hz.
  split; [done|]. split; [done|]. split; [by apply shard_int_decode|].
  intros d' Hfresh. split; [|split].
  - reflexivity.
  - apply shard_count_insert; [done|apply shard_key_in_range].
  - rewrite shard_sum_insert by (done || apply shard_key_in_range).
    rewrite (shard_int_value _ _ Hz). cbn. lia.
Qed.

(** C7, as the code has it.  Once its transaction exists, [_coalesce]
    never lets an [FDBError] out: a failing scan is caught and the pass
    returns normally.  It returns normally whenever the entries scanned hold
    integers with an encodable total; an entry that does not decode to an
    integer makes it raise (an exception that is not an [FDBError]), which
    the [except fdb.FDBError] clause lets through to the caller. *)
Theorem coalesce_catches_FDBError self N w :
  let win := scan_window self N (database w) (next_urandom 0 20 w) (random_src w 0%nat) in
  faults w 0%nat = None ->
  (forall c, (_coalesce self N w).1 <> Raise (FDBError c)) /\
  (forall c, faults w 1%nat = Some c -> (_coalesce self N w).1 = Ok tt) /\
  (ints win -> encodable (sum_values win) -> (_coalesce self N w).1 = Ok tt) /\
  (faults w 1%nat = None -> ~ ints win ->
   exists e, (_coalesce self N w).1 = Raise e /\ not_FDBError e).
Proof.
  intros win G0. destruct (_coalesce_run self N w) as [Hout _].
  inversion Hout as [c w' F0 Hc' | c w' F0 F1 Hc' | e w' F0 F1 Hi He Hc'
                    | e w' F0 F1 Hi Hv He Hc' | v w' win' F0 F1 Hi Hv Hc' Hh];
    try congruence;
    repeat match goal with H : context [scan_window _ _ _ _ _] |- _ => progress fold win in H end.
  - split; [done|]. split; [done|]. split; [done|]. congruence.
  - split; [intros c [= ->]; by eapply He|]. split; [congruence|].
    split; [done|]. eauto.
  - split; [intros c [= ->]; by eapply He|]. split; [congruence|].
    split; [|done]. intros _ Ge. destruct (_encode_int_decode _ Ge) as (s & Hs & _). congruence.
  - split; [done|]. split; [done|]. split; done.
Qed.

(** ** Reading the counter *)

Lemma sum_loop_ints l total : ints l -> sum_loop l total = Ok (total + sum_values l).
Proof.
  revert total. induction l as [|[k v] l IH]; intros total Hi.
  - cbn. f_equal. lia.
  - inversion Hi as [|? ? [z Hz] Hl]; subst. cbn [snd] in Hz.
    cbn [sum_loop]. rewrite (proj1 (shard_int_decode v z) Hz). cbn.
    rewrite (IH _ Hl). unfold sum_values. cbn [foldr snd]. fold (sum_values l).
    rewrite (shard_int_value v z Hz). f_equal. lia.
Qed.

Lemma namespace_scan_ints self d :
  all_ints (shards self d) ->
  ints (range_scan d (Subspace.range (subspace self)).1 (Subspace.range (subspace self)).2
          0 false).
Proof.
  intros Ha. apply Forall_forall. intros [k v] Hin.
  apply range_scan_elem in Hin as [Hd Hr]. apply (Ha k).
  unfold shards, range_entries. by apply map_lookup_filter_Some.
Qed.

Lemma namespace_scan_sum self d :
  sum_values (range_scan d (Subspace.range (subspace self)).1
                (Subspace.range (subspace self)).2 0 false)
  = shard_sum self d.
Proof. unfold shard_sum, shards. apply sum_values_Permutation, range_scan_all. Qed.

Lemma run_get_snapshot self tr w :
  get_snapshot self tr w
  = (match faults w 0%nat with
     | Some c => Raise (FDBError c)
     | None =>
         sum_loop (range_scan (snapshot_view (the_tr tr w))
                     (Subspace.range (subspace self)).1
                     (Subspace.range (subspace self)).2 0 false) 0
     end, set_faults (fun i => faults w (S i)) w).
Proof.
  unfold get_snapshot, snapshot_get_range, store_call, act, lift, mbind, M_bind.
  by destruct (faults w 0%nat).
Qed.

Lemma run_get_transactional self tr w :
  get_transactional self tr w
  = match faults w 0%nat with
    | Some c => (Raise (FDBError c), set_faults (fun i => faults w (S i)) w)
    | None =>
        (sum_loop (range_scan (tr_view (the_tr tr w))
                     (Subspace.range (subspace self)).1
                     (Subspace.range (subspace self)).2 0 false) 0,
         set_heap (alter (add_read_range (Subspace.range (subspace self))) tr (heap w))
           (set_faults (fun i => faults w (S i)) w))
    end.
Proof.
  unfold get_transactional, tr_get_range, store_call, update_tr, act, lift, mbind, M_bind,
    mret, M_ret.
  destruct (faults w 0%nat); [done|]. by destruct (subspace self).
Qed.

(** [get_snapshot] when the range read goes through and finds integers. *)
Lemma get_snapshot_effect self tr w t :
  heap w !! tr = Some t ->
  faults w 0%nat = None ->
  all_ints (shards self (snapshot_view t)) ->
  get_snapshot self tr w
  = (Ok (shard_sum self (snapshot_view t)), set_faults (fun i => faults w (S i)) w).
Proof.
  intros Ht F0 Hi. rewrite run_get_snapshot, F0.
  assert (Hthe : the_tr tr w = t) by (unfold the_tr; by rewrite Ht).
  by rewrite Hthe, sum_loop_ints, namespace_scan_sum, Z.add_0_l
    by (by apply namespace_scan_ints).
Qed.

(** C4.  [get_snapshot] returns the sum of the shards.  In a transaction
    whose snapshot view of the namespace holds integers only, and when the
    range read does not fail, [get_snapshot] returns the sum of the values of
    all shards in that view (0 when there are none); it reads in snapshot
    mode: the transaction gets no read-conflict range and no write. *)
Theorem get_snapshot_sums_shards self tr w t :
  heap w !! tr = Some t ->
  faults w 0%nat = None ->
  all_ints (shards self (snapshot_view t)) ->
  (get_snapshot self tr w).1 = Ok (shard_sum self (snapshot_view t)) /\
  (shards self (snapshot_view t) = ∅ -> (get_snapshot self tr w).1 = Ok 0) /\
  heap (get_snapshot self tr w).2 = heap w /\
  database (get_snapshot self tr w).2 = database w.
Proof.
  intros Ht F0 Hi. rewrite (get_snapshot_effect self tr w t Ht F0 Hi). cbn [fst snd].
  split; [done|]. split; [|done].
  intros He. unfold shard_sum. by rewrite He, map_to_list_empty.
Qed.



(** ** Writing the counter *)

Lemma tr_view_add_mutation m t :
  tr_view (add_mutation m t) = apply_mutation (tr_view t) m.
Proof.
  unfold tr_view, add_mutation. cbn [mutations base]. by rewrite apply_mutations_app.
Qed.

Lemma the_tr_alter f tr w w0 t :
  heap w !! tr = Some t -> the_tr tr (set_heap (alter f tr (heap w)) w0) = f t.
Proof. intros Ht. unfold the_tr. proj. by rewrite list_lookup_alter_eq, Ht. Qed.

(** [add] up to the point where it may start a coalescing pass. *)
Lemma run_add self tr x w :
  add self tr x w
  = match _encode_int x with
    | Raise e => (Raise e, w)
    | Ok v =>
        let k := shard_key (subspace self) (next_urandom 0 20 w) in
        let w2 := set_random_src (fun i => random_src w (S i))
                    (set_heap (alter (add_mutation (MSet k v)) tr (heap w))
                       (set_urandom_src (fun i => urandom_src w (20 + i)%nat) w)) in
        if Qltb (random_src w 0%nat) one_tenth then _coalesce self 20 w2 else (Ok tt, w2)
    end.
Proof.
  unfold add. rewrite run_bind, run_lift. destruct (_encode_int x) as [v|e]; [|done].
  rewrite run_randID, Subspace_pack_bytes, run_lift_ok.
  unfold tr_set, update_tr. rewrite run_bind, run_random. proj.
  by destruct (Qltb (random_src w 0%nat) one_tenth).
Qed.

(** What [add] leaves behind, whether or not it starts a pass and however
    the pass ends. *)
Lemma add_effect self tr x w t v :
  let k := shard_key (subspace self) (next_urandom 0 20 w) in
  heap w !! tr = Some t ->
  _encode_int x = Ok v ->
  the_tr tr (add self tr x w).2 = add_mutation (MSet k v) t /\
  database (add self tr x w).2 = database w /\
  (forall h, (h < length (heap w))%nat -> h <> tr ->
             heap (add self tr x w).2 !! h = heap w !! h) /\
  (Qltb (random_src w 0%nat) one_tenth = false -> (add self tr x w).1 = Ok tt).
Proof.
  intros k Ht Hv. rewrite run_add, Hv. cbv zeta. fold k.
  destruct (Qltb (random_src w 0%nat) one_tenth).
  - match goal with |- context [_coalesce self 20 ?w2] =>
      destruct (_coalesce_run self 20 w2) as (_ & Hdb & Hheap) end.
    revert Hdb Hheap. proj. rewrite length_alter. intros Hdb Hheap.
    assert (Htr : (tr < length (heap w))%nat) by (by eapply lookup_lt_Some).
    split; [|split; [|split]].
    + unfold the_tr. by rewrite Hheap, list_lookup_alter_eq, Ht by done.
    + done.
    + intros h Hh Hne. rewrite Hheap by done. by apply list_lookup_alter_ne.
    + done.
  - proj. split; [|split; [|split]].
    + by apply the_tr_alter.
    + done.
    + intros h Hh Hne. by apply list_lookup_alter_ne.
    + done.
Qed.

(** C3.  [add] stages exactly one new shard.  For every encodable [x]
    (negative ones included), [add] appends one write to the transaction and
    nothing else: the key comes from the next twenty random bytes and lies in
    the namespace, the value decodes to [x].  The key being a fresh one, not
    in use in the transaction's view, every entry that was there is still
    there with its value and the namespace has one shard more.  The database
    itself and the other transactions are as they were; whatever a coalescing
    pass started by this call does, it does in a transaction of its own. *)
Theorem add_inserts_one_shard self tr x w t :
  let k := shard_key (subspace self) (next_urandom 0 20 w) in
  let w' := (add self tr x w).2 in
  heap w !! tr = Some t ->
  encodable x ->
  exists v,
    _decode_int v = Ok (tuple.PyInt x) /\
    the_tr tr w' = add_mutation (MSet k v) t /\
    tr_view (the_tr tr w') = <[k:=v]> (tr_view t) /\
    in_range (Subspace.range (subspace self)).1 (Subspace.range (subspace self)).2 k = true /\
    (forall k', k' <> k -> tr_view (the_tr tr w') !! k' = tr_view t !! k') /\
    (tr_view t !! k = None ->
     (forall k' v', tr_view t !! k' = Some v' -> tr_view (the_tr tr w') !! k' = Some v') /\
     size (tr_view (the_tr tr w')) = S (size (tr_view t)) /\
     shard_count self (tr_view (the_tr tr w')) = S (shard_count self (tr_view t))) /\
    database w' = database w /\
    (forall h, (h < length (heap w))%nat -> h <> tr -> heap w' !! h = heap w !! h).
Proof.
  intros k w' Ht Hx.
  destruct (_encode_int_decode x Hx) as (v & Hv & Hd).
  destruct (add_effect self tr x w t v Ht Hv) as (Hthe & Hdb & Hheap & _).
  fold k w' in Hthe, Hdb, Hheap.
  exists v. rewrite Hthe, tr_view_add_mutation. cbn [apply_mutation].
  split; [done|]. split; [done|]. split; [done|].
  split; [apply shard_key_in_range|]. split; [|split; [|split]]; try done.
  - intros k' Hne. by apply lookup_insert_ne.
  - intros Hfresh. split; [|split].
    + intros k' v' Hk'. rewrite lookup_insert_ne; [done|]. intros <-. congruence.
    + by apply map_size_insert_None.
    + apply shard_count_insert; [done|apply shard_key_in_range].
Qed.


(** ** The keys of new shards *)

Lemma byte_eqb_true b c : Byte.eqb b c = true -> b = c.
Proof. apply Byte.byte_dec_bl. Qed.

Lemma _find_terminator_escape rid :
  tuple._find_terminator (tuple.escape rid ++ [x00]) = length (tuple.escape rid).
Proof.
  induction rid as [|b rid IH]; [done|].
  unfold tuple.escape in *. cbn [flat_map].
  destruct (Byte.eqb b x00) eqn:E.
  - apply byte_eqb_true in E as ->. cbn. by rewrite IH.
  - cbn. by rewrite E, IH.
Qed.

Lemma unescape_escape rid : tuple.unescape (tuple.escape rid) = rid.
Proof.
  induction rid as [|b rid IH]; [done|].
  unfold tuple.escape in *. cbn [flat_map].
  destruct (Byte.eqb b x00) eqn:E.
  - apply byte_eqb_true in E as ->. cbn. by rewrite IH.
  - cbn. by rewrite E, IH.
Qed.

Lemma length_escape rid :
  (length rid <= length (tuple.escape rid) <= 2 * length rid)%nat.
Proof.
  induction rid as [|b rid IH]; [done|].
  unfold tuple.escape in *. cbn [flat_map]. rewrite length_app.
  destruct (Byte.eqb b x00); cbn [length]; lia.
Qed.

(** A packed byte string unpacks to the bytes that went in. *)
Lemma unpack_bytes rid :
  tuple.unpack (x01 :: tuple.escape rid ++ [x00]) = Ok [tuple.PyBytes rid].
Proof.
  apply unpack_one; [done|]. unfold tuple._decode.
  change (ord x01 =? 0) with false. change (ord x01 =? 1) with true. cbn match.
  rewrite _find_terminator_escape, take_app_length, unescape_escape.
  do 3 f_equal. rewrite drop_ge; [done|]. rewrite length_app. cbn. lia.
Qed.

Lemma length_next_urandom skip n w : length (next_urandom skip n w) = n.
Proof. unfold next_urandom. by rewrite length_map, length_seq. Qed.

(** C9, as the code has it.  The key of a new shard is the namespace
    prefix followed by the tuple-layer packing of twenty bytes from
    [os.urandom]: the type code [\x01], the twenty bytes with [\xff] put after
    every [\x00] among them, and a closing [\x00], which is 22 to 42 bytes from
    which the twenty come back by unpacking.  Nothing else goes into it: not
    the value added, not the transaction, not the database.  This holds for
    the shard [add] writes and for the one a coalescing pass writes. *)
Theorem shard_key_packs_random_bytes self tr x w t :
  let rid := next_urandom 0 20 w in
  let suffix := x01 :: tuple.escape rid ++ [x00] in
  heap w !! tr = Some t ->
  encodable x ->
  length rid = 20%nat /\
  (exists v, mutations (the_tr tr (add self tr x w).2)
             = mutations t ++ [MSet (Subspace.rawPrefix (subspace self) ++ suffix) v]) /\
  tuple.unpack suffix = Ok [tuple.PyBytes rid] /\
  (22 <= length suffix <= 42)%nat /\
  (forall N w0,
     committing (_coalesce self N w0).2 = committing w0 ++ [length (heap w0)] ->
     exists v, written (the_tr (length (heap w0)) (_coalesce self N w0).2)
               = [(Subspace.rawPrefix (subspace self)
                     ++ x01 :: tuple.escape (next_urandom 20 20 w0) ++ [x00], v)]).
Proof.
  intros rid suffix Ht Hx.
  destruct (_encode_int_decode x Hx) as (v & Hv & _).
  destruct (add_effect self tr x w t v Ht Hv) as (Hthe & _).
  pose proof (length_next_urandom 0 20 w) as Hlen. fold rid in Hlen.
  split; [done|]. split; [|split; [|split]].
  - exists v. by rewrite Hthe.
  - apply unpack_bytes.
  - pose proof (length_escape rid) as Hesc. subst suffix. clearbody rid.
    cbn [length]. rewrite length_app. cbn [length]. lia.
  - intros N w0 Hc. destruct (_coalesce_committing self N w0 Hc) as (v0 & _ & _ & _ & Ht0).
    exists v0. rewrite Ht0. erewrite written_app_clears; [|reflexivity]. reflexivity.
Qed.

(** ** The statements at work on the example *)

Lemma all_ints_list d :
  Forall (fun kv => is_Some (shard_int kv.2)) (map_to_list d) -> all_ints d.
Proof.
  intros Hf k v Hk. rewrite Forall_forall in Hf.
  apply (Hf (k, v)). by apply elem_of_map_to_list.
Qed.

(** C9 fails as stated: the key [add] writes is not the prefix followed by
    the twenty random bytes. *)
Lemma shard_key_is_not_raw_random_bytes :
  exists k v,
    written (the_tr 0 (add example.counter 0 1 (example.world_tr (1 # 2))).2) = [(k, v)] /\
    k <> Subspace.rawPrefix (subspace example.counter)
         ++ next_urandom 0 20 (example.world_tr (1 # 2)).
Proof. eexists _, _. split; [vm_compute; reflexivity|]. vm_compute. discriminate. Qed.

(** C7 fails as stated: a shard whose value is the empty string makes
    [_decode_int] raise [IndexError], and [_coalesce] raises it to its
    caller. *)
Lemma coalesce_raises_IndexError :
  (_coalesce example.counter 20 example.world_bad).1 = Raise IndexError.
Proof. vm_compute. reflexivity. Qed.


(** A pass over the shards -3 and 7 of the example, committed to the database
    it read: the sum stays 9. *)
Lemma coalesce_preserves_sum_witness :
  let w := example.world (1 # 4) example.no_faults in
  let t := the_tr (length (heap w)) (_coalesce example.counter 2 w).2 in
  committing (_coalesce example.counter 2 w).2 = committing w ++ [length (heap w)] /\
  commit_outcome example.db t = Some example.db_merged /\
  example.db !! shard_key (subspace example.counter) (next_urandom 20 20 w) = None /\
  shard_sum example.counter example.db_merged = shard_sum example.counter example.db.
Proof.
  intros w t.
  assert (H1 : committing (_coalesce example.counter 2 w).2
               = committing w ++ [length (heap w)]) by (vm_compute; reflexivity).
  assert (H2 : commit_outcome example.db t = Some example.db_merged)
    by (apply (bool_decide_unpack _); vm_compute; exact I).
  assert (H3 : example.db !! shard_key (subspace example.counter) (next_urandom 20 20 w)
               = None) by (vm_compute; reflexivity).
  split; [exact H1|]. split; [exact H2|]. split; [exact H3|].
  destruct (coalesce_preserves_sum example.counter 2 w example.db example.db_merged H1 H2)
    as (v & _ & _ & Hs).
  exact (Hs H3).
Defined.

(** The same pass: two shards cleared, one set, a count of 3 becomes 2. *)
Lemma coalesce_reduces_count_witness :
  let w := example.world (1 # 4) example.no_faults in
  let t := the_tr (length (heap w)) (_coalesce example.counter 2 w).2 in
  let win := scan_window example.counter 2 (database w) (next_urandom 0 20 w)
               (random_src w 0%nat) in
  committing (_coalesce example.counter 2 w).2 = committing w ++ [length (heap w)] /\
  commit_outcome example.db t = Some example.db_merged /\
  example.db !! shard_key (subspace example.counter) (next_urandom 20 20 w) = None /\
  (1 <= length win)%nat /\
  shard_count example.counter example.db_merged
  = (shard_count example.counter example.db - (length win - 1))%nat.
Proof.
  intros w t win.
  assert (H1 : committing (_coalesce example.counter 2 w).2
               = committing w ++ [length (heap w)]) by (vm_compute; reflexivity).
  assert (H2 : commit_outcome example.db t = Some example.db_merged)
    by (apply (bool_decide_unpack _); vm_compute; exact I).
  assert (H3 : example.db !! shard_key (subspace example.counter) (next_urandom 20 20 w)
               = None) by (vm_compute; reflexivity).
  assert (H4 : (1 <= length win)%nat) by (vm_compute; lia).
  split; [exact H1|]. split; [exact H2|]. split; [exact H3|]. split; [exact H4|].
  destruct (coalesce_reduces_count example.counter 2 w example.db example.db_merged
              H1 H2 H3 H4) as (_ & _ & _ & _ & Hn).
  exact Hn.
Defined.

(** A pass over a database without shards. *)
Lemma coalesce_empty_window_witness :
  let w := example.world_empty in
  faults w 0%nat = None /\
  faults w 1%nat = None /\
  scan_window example.counter 20 (database w) (next_urandom 0 20 w) (random_src w 0%nat) = [] /\
  (_coalesce example.counter 20 w).1 = Ok tt /\
  committing (_coalesce example.counter 20 w).2 = committing w ++ [length (heap w)].
Proof.
  intros w.
  assert (H1 : faults w 0%nat = None) by reflexivity.
  assert (H2 : faults w 1%nat = None) by reflexivity.
  assert (H3 : scan_window example.counter 20 (database w) (next_urandom 0 20 w)
                 (random_src w 0%nat) = []) by (vm_compute; reflexivity).
  split; [exact H1|]. split; [exact H2|]. split; [exact H3|].
  destruct (coalesce_empty_window example.counter 20 w H1 H2 H3) as (Hr & Hc & _).
  split; [exact Hr|exact Hc].
Defined.

(** A pass whose scan fails with [not_committed] returns normally. *)
Lemma coalesce_catches_FDBError_witness :
  let w := example.world (1 # 4) example.scan_fails in
  faults w 0%nat = None /\ (_coalesce example.counter 20 w).1 = Ok tt.
Proof.
  intros w.
  assert (H0 : faults w 0%nat = None) by reflexivity.
  split; [exact H0|].
  destruct (coalesce_catches_FDBError example.counter 20 w H0) as (_ & Hscan & _).
  exact (Hscan 1020 eq_refl).
Defined.

(** [get_snapshot] on the example database. *)
Lemma get_snapshot_sums_shards_witness :
  let w := example.world_tr (1 # 2) in
  let t := mkTransaction example.db [] [] [] false in
  heap w !! 0%nat = Some t /\
  faults w 0%nat = None /\
  all_ints (shards example.counter (snapshot_view t)) /\
  (get_snapshot example.counter 0 w).1 = Ok (shard_sum example.counter (snapshot_view t)).
Proof.
  intros w t.
  assert (H1 : heap w !! 0%nat = Some t) by reflexivity.
  assert (H2 : faults w 0%nat = None) by reflexivity.
  assert (H3 : all_ints (shards example.counter (snapshot_view t))).
  { apply all_ints_list. apply (bool_decide_unpack _). vm_compute. exact I. }
  split; [exact H1|]. split; [exact H2|]. split; [exact H3|].
  destruct (get_snapshot_sums_shards example.counter 0 w t H1 H2 H3) as (Hr & _).
  exact Hr.
Defined.

(** [add(-2)] in a transaction on the example database. *)
Lemma add_inserts_one_shard_witness :
  let w := example.world_tr (1 # 2) in
  let t := mkTransaction example.db [] [] [] false in
  let k := shard_key (subspace example.counter) (next_urandom 0 20 w) in
  heap w !! 0%nat = Some t /\
  encodable (-2) /\
  exists v, _decode_int v = Ok (tuple.PyInt (-2)) /\
            the_tr 0 (add example.counter 0 (-2) w).2 = add_mutation (MSet k v) t.
Proof.
  intros w t k.
  assert (H1 : heap w !! 0%nat = Some t) by reflexivity.
  assert (H2 : encodable (-2)) by (unfold encodable; lia).
  split; [exact H1|]. split; [exact H2|].
  destruct (add_inserts_one_shard example.counter 0 (-2) w t H1 H2) as (v & Hd & Ht & _).
  exists v. split; [exact Hd|exact Ht].
Defined.


(** The key [add(1)] writes in the example. *)
Lemma shard_key_packs_random_bytes_witness :
  let w := example.world_tr (1 # 2) in
  let t := mkTransaction example.db [] [] [] false in
  heap w !! 0%nat = Some t /\
  encodable 1 /\
  length (next_urandom 0 20 w) = 20%nat /\
  tuple.unpack (x01 :: tuple.escape (next_urandom 0 20 w) ++ [x00])
  = Ok [tuple.PyBytes (next_urandom 0 20 w)].
Proof.
  intros w t.
  assert (H1 : heap w !! 0%nat = Some t) by reflexivity.
  assert (H2 : encodable 1) by (unfold encodable; lia).
  split; [exact H1|]. split; [exact H2|].
  destruct (shard_key_packs_random_bytes example.counter 0 1 w t H1 H2) as (Hl & _ & Hu & _).
  split; [exact Hl|exact Hu].
Defined.

(** * Further properties of the code *)

(** ** More on the coalescing pass *)

Lemma length_range_scan d start stop limit rev :
  limit <> 0%nat -> (length (range_scan d start stop limit rev) <= limit)%nat.
Proof.
  intros Hl. unfold range_scan. destruct (Nat.eqb_spec limit 0); [done|].
  rewrite length_take. lia.
Qed.

Lemma length_scan_window self N d rid r :
  N <> 0%nat -> (length (scan_window self N d rid r) <= N)%nat.
Proof. intros HN. unfold scan_window. destruct (Qltb r (1 # 2)); by apply length_range_scan. Qed.

(** X1.  A pass keeps to itself.  However [_coalesce] ends, it leaves the
    committed database as it was and every transaction object that existed
    before the call as it was; the only commit it can have issued is that of
    the transaction it created. *)
Theorem coalesce_touches_only_its_own_transaction self N w :
  let w' := (_coalesce self N w).2 in
  database w' = database w /\
  (forall h, (h < length (heap w))%nat -> heap w' !! h = heap w !! h) /\
  (committing w' = committing w \/ committing w' = committing w ++ [length (heap w)]).
Proof.
  intros w'. destruct (_coalesce_run self N w) as (Hout & Hdb & Hheap).
  split; [done|]. split; [done|].
  inversion Hout; auto.
Qed.

(** A pass raises an [FDBError] exactly when it cannot create its
    transaction. *)
Lemma _coalesce_FDBError self N w c :
  (_coalesce self N w).1 = Raise (FDBError c) <-> faults w 0%nat = Some c.
Proof.
  destruct (_coalesce_run self N w) as (Hout & _).
  inversion Hout as [c' w' F0 Hc' | c' w' F0 F1 Hc' | e w' F0 F1 Hi He Hc'
                    | e w' F0 F1 Hi Hv He Hc' | v w' win' F0 F1 Hi Hv Hc' Hh].
  - split; congruence.
  - split; congruence.
  - split; [intros [= ->]; by destruct (He c)|congruence].
  - split; [intros [= ->]; by destruct (He c)|congruence].
  - split; congruence.
Qed.

(** X2.  The one [FDBError] a pass lets out.  [_coalesce] raises an
    [FDBError] exactly when [self.db.create_transaction()], which it calls
    before entering its [try] block, fails; it then raises that very error,
    having done nothing else. *)
Theorem coalesce_raises_FDBError_iff self N w c :
  ((_coalesce self N w).1 = Raise (FDBError c) <-> faults w 0%nat = Some c) /\
  (faults w 0%nat = Some c ->
   _coalesce self N w = (Raise (FDBError c), set_faults (fun i => faults w (S i)) w)).
Proof.
  split; [apply _coalesce_FDBError|].
  intros F0. unfold _coalesce. by rewrite run_create_transaction, F0.
Qed.

(** X3.  A pass clears a bounded part of its own namespace.  The
    transaction whose commit a pass [_coalesce(N)] issues, [N] not 0, clears
    at most [N] keys, each once; every one of them is a key of the counter's
    namespace that held a shard when the pass read the database, and every
    one was also read in conflict-tracked mode. *)
Theorem coalesce_clears_at_most_N_shards self N w :
  let w' := (_coalesce self N w).2 in
  let t := the_tr (length (heap w)) w' in
  committing w' = committing w ++ [length (heap w)] ->
  N <> 0%nat ->
  (length (cleared t) <= N)%nat /\
  NoDup (cleared t) /\
  read_keys t = cleared t /\
  forall k, k ∈ cleared t ->
    is_Some (database w !! k) /\
    in_range (Subspace.range (subspace self)).1 (Subspace.range (subspace self)).2 k = true.
Proof.
  intros w' t Hc HN.
  destruct (_coalesce_committing self N w Hc) as (v & _ & _ & _ & Ht). fold w' t in Ht.
  set (win := scan_window self N (database w) (next_urandom 0 20 w) (random_src w 0%nat)) in *.
  destruct (window_facts self N (database w) (next_urandom 0 20 w) (random_src w 0%nat))
    as [Hnd Hwin]. fold win in Hnd, Hwin.
  assert (Hcl : cleared t = win.*1).
  { rewrite Ht. erewrite cleared_app_clears; [|reflexivity]. cbn. apply app_nil_r. }
  rewrite Hcl. split; [|split; [done|split]].
  - rewrite length_fmap. by apply length_scan_window.
  - by rewrite Ht.
  - intros k ([k' v'] & -> & Hin)%list_elem_of_fmap.
    destruct (Hwin k' v' Hin) as [Hd Hr]. cbn. by rewrite Hd.
Qed.


(** ** More on [add] *)



(** X6.  [add] raises an [FDBError] only through the pass it starts.  The
    only [FDBError] that comes out of [add] is that of a failing
    [create_transaction] in [_coalesce], and it comes out exactly when the
    value was encoded, the draw was below 0.1 and that call failed. *)
Theorem add_raises_FDBError_iff self tr x w c :
  (add self tr x w).1 = Raise (FDBError c) <->
  encodable x /\ Qltb (random_src w 0%nat) one_tenth = true /\ faults w 0%nat = Some c.
Proof.
  rewrite run_add. destruct (_encode_int x) as [v|e] eqn:He.
  - cbv zeta. pose proof (_encode_int_ok x v He) as Hx.
    destruct (Qltb (random_src w 0%nat) one_tenth).
    + split.
      * intros Hr. split; [done|]. split; [done|].
        by apply (_coalesce_FDBError self 20) in Hr.
      * intros (_ & _ & Hf). by apply (_coalesce_FDBError self 20).
    + split; [done|]. by intros (_ & ? & _).
  - split.
    + intros [= ->]. by destruct (_encode_int_not_FDBError _ _ He c).
    + intros (Hx & _). destruct (_encode_int_decode x Hx) as (s & Hs & _). congruence.
Qed.

Lemma commit_outcome_add_mutation d m t :
  commit_outcome d (add_mutation m t)
  = (fun d' => apply_mutation d' m) <$> commit_outcome d t.
Proof.
  unfold commit_outcome, conflict_free, add_mutation. cbn [read_keys read_ranges base mutations].
  destruct (_ && _); [|done]. cbn. by rewrite apply_mutations_app.
Qed.

(** X7.  [add] adds no read conflict.  After [add], the transaction is
    accepted by exactly the databases that would have accepted it before,
    and committing it does what it would have done before followed by the
    one new write, whose value decodes to [x]. *)
Theorem add_registers_no_conflict self tr x w t d :
  let k := shard_key (subspace self) (next_urandom 0 20 w) in
  let t' := the_tr tr (add self tr x w).2 in
  heap w !! tr = Some t ->
  encodable x ->
  exists v,
    shard_int v = Some x /\
    commit_outcome d t' = (fun d' => <[k:=v]> d') <$> commit_outcome d t.
Proof.
  intros k t' Ht Hx. destruct (_encode_int_decode x Hx) as (v & Hv & Hd).
  destruct (add_effect self tr x w t v Ht Hv) as (Hthe & _). fold k t' in Hthe.
  exists v. split; [by apply shard_int_decode|].
  by rewrite Hthe, commit_outcome_add_mutation.
Qed.

Lemma commit_outcome_untouched d d0 b :
  commit_outcome d (mkTransaction d0 [] [] [] b) = Some d.
Proof. reflexivity. Qed.

(** X8.  Concurrent adders do not conflict.  Two clients each run [add] in
    a transaction of their own that did nothing else; their keys differ and
    are not in use.  Then both commits are accepted in either order, the
    database is the same both ways, and it holds two shards more, with
    [x1 + x2] added to the sum. *)
Theorem concurrent_adds_commute self tr1 tr2 x1 x2 w1 w2 t1 t2 d :
  let k1 := shard_key (subspace self) (next_urandom 0 20 w1) in
  let k2 := shard_key (subspace self) (next_urandom 0 20 w2) in
  let t1' := the_tr tr1 (add self tr1 x1 w1).2 in
  let t2' := the_tr tr2 (add self tr2 x2 w2).2 in
  heap w1 !! tr1 = Some t1 -> heap w2 !! tr2 = Some t2 ->
  mutations t1 = [] /\ read_keys t1 = [] /\ read_ranges t1 = [] ->
  mutations t2 = [] /\ read_keys t2 = [] /\ read_ranges t2 = [] ->
  encodable x1 -> encodable x2 ->
  k1 <> k2 -> d !! k1 = None -> d !! k2 = None ->
  exists d12,
    (d1 ← commit_outcome d t1'; commit_outcome d1 t2') = Some d12 /\
    (d2 ← commit_outcome d t2'; commit_outcome d2 t1') = Some d12 /\
    shard_sum self d12 = shard_sum self d + x1 + x2 /\
    shard_count self d12 = S (S (shard_count self d)).
Proof.
  intros k1 k2 t1' t2' Ht1 Ht2 (Hm1 & Hk1 & Hr1) (Hm2 & Hk2 & Hr2) Hx1 Hx2 Hne Hf1 Hf2.
  destruct (_encode_int_decode x1 Hx1) as (v1 & Hv1 & Hd1).
  destruct (_encode_int_decode x2 Hx2) as (v2 & Hv2 & Hd2).
  destruct (add_effect self tr1 x1 w1 t1 v1 Ht1 Hv1) as (Hthe1 & _).
  destruct (add_effect self tr2 x2 w2 t2 v2 Ht2 Hv2) as (Hthe2 & _).
  fold k1 t1' in Hthe1. fold k2 t2' in Hthe2.
  destruct t1 as [b1 m1 rk1 rr1 s1], t2 as [b2 m2 rk2 rr2 s2]. cbn in Hm1, Hk1, Hr1, Hm2, Hk2, Hr2.
  subst. rewrite Hthe1, Hthe2.
  exists (<[k2:=v2]> (<[k1:=v1]> d)).
  rewrite !commit_outcome_add_mutation, !commit_outcome_untouched.
  cbn [fmap option_fmap option_map mbind option_bind apply_mutation].
  rewrite !commit_outcome_add_mutation, !commit_outcome_untouched.
  cbn [fmap option_fmap option_map mbind option_bind apply_mutation].
  pose proof (shard_key_in_range (subspace self) (next_urandom 0 20 w1)) as Hin1.
  pose proof (shard_key_in_range (subspace self) (next_urandom 0 20 w2)) as Hin2.
  fold k1 in Hin1. fold k2 in Hin2.
  split; [done|]. split; [by rewrite insert_insert_ne|].
  assert (Hf2' : <[k1:=v1]> d !! k2 = None) by (by rewrite lookup_insert_ne).
  rewrite shard_sum_insert, shard_count_insert, shard_sum_insert, shard_count_insert by done.
  rewrite (shard_int_value v1 x1), (shard_int_value v2 x2) by (by apply shard_int_decode).
  split; [lia|done].
Qed.

(** ** More on the reads *)

Lemma the_tr_live tr w t : heap w !! tr = Some t -> the_tr tr w = t.
Proof. intros Ht. unfold the_tr. by rewrite Ht. Qed.

(** [get_transactional] when the range read goes through. *)
Lemma get_transactional_effect self tr w t :
  heap w !! tr = Some t ->
  faults w 0%nat = None ->
  get_transactional self tr w
  = (sum_loop (range_scan (tr_view t) (Subspace.range (subspace self)).1
                 (Subspace.range (subspace self)).2 0 false) 0,
     set_heap (alter (add_read_range (Subspace.range (subspace self))) tr (heap w))
       (set_faults (fun i => faults w (S i)) w)).
Proof.
  intros Ht F0. by rewrite run_get_transactional, F0, (the_tr_live tr w t Ht).
Qed.

(** X9.  [get_transactional] returns the sum of the shards it sees.  In a
    transaction whose view of the namespace (its own writes included) holds
    integers only, and when the range read does not fail,
    [get_transactional] returns the sum of the shards of that view; it leaves
    the namespace range on the transaction as a read-conflict range and
    nothing else. *)
Theorem get_transactional_sums_shards self tr w t :
  let w' := (get_transactional self tr w).2 in
  heap w !! tr = Some t ->
  faults w 0%nat = None ->
  all_ints (shards self (tr_view t)) ->
  (get_transactional self tr w).1 = Ok (shard_sum self (tr_view t)) /\
  the_tr tr w' = add_read_range (Subspace.range (subspace self)) t /\
  database w' = database w.
Proof.
  intros w' Ht F0 Hi. subst w'. rewrite (get_transactional_effect self tr w t Ht F0).
  cbn [fst snd]. split; [|split; [|done]].
  - by rewrite sum_loop_ints, namespace_scan_sum, Z.add_0_l by (by apply namespace_scan_ints).
  - by apply the_tr_alter.
Qed.

Lemma all_ints_insert d k v z :
  all_ints d -> shard_int v = Some z -> all_ints (<[k:=v]> d).
Proof.
  intros Hd Hv k' v' Hk'. destruct (decide (k = k')) as [->|Hne].
  - rewrite lookup_insert_eq in Hk'. injection Hk' as <-. by eexists.
  - rewrite lookup_insert_ne in Hk' by done. by eapply Hd.
Qed.

Lemma shards_insert_key self d rid v :
  shards self (<[shard_key (subspace self) rid := v]> d)
  = <[shard_key (subspace self) rid := v]> (shards self d).
Proof.
  unfold shards, range_entries. apply map_filter_insert_True. apply shard_key_in_range.
Qed.

(** X10.  A transaction reads its own [add].  After [add(x)], with a key
    not in use, [get_transactional] in the same transaction returns what it
    would have returned before plus [x] (the shards being integers and the
    range read not failing). *)
Theorem get_transactional_after_add self tr x w t :
  let k := shard_key (subspace self) (next_urandom 0 20 w) in
  let w' := (add self tr x w).2 in
  heap w !! tr = Some t ->
  encodable x ->
  tr_view t !! k = None ->
  all_ints (shards self (tr_view t)) ->
  faults w' 0%nat = None ->
  (get_transactional self tr w').1 = Ok (shard_sum self (tr_view t) + x).
Proof.
  intros k w' Ht Hx Hfresh Hi F0.
  destruct (_encode_int_decode x Hx) as (v & Hv & Hd).
  destruct (add_effect self tr x w t v Ht Hv) as (Hthe & _ & _). fold k w' in Hthe.
  assert (Hlive : heap w' !! tr = Some (add_mutation (MSet k v) t)).
  { unfold the_tr in Hthe. destruct (heap w' !! tr) as [t0|] eqn:E; [by rewrite <- Hthe|].
    exfalso. cbn in Hthe. apply (f_equal mutations) in Hthe. cbn in Hthe.
    by destruct (mutations t). }
  rewrite (get_transactional_effect self tr w' _ Hlive F0). cbn [fst].
  rewrite tr_view_add_mutation. cbn [apply_mutation].
  assert (Hz : shard_int v = Some x) by (by apply shard_int_decode).
  rewrite sum_loop_ints, namespace_scan_sum, Z.add_0_l.
  - rewrite shard_sum_insert by (done || apply shard_key_in_range).
    by rewrite (shard_int_value v x Hz).
  - apply namespace_scan_ints. unfold k. rewrite shards_insert_key.
    by eapply all_ints_insert.
Qed.

(** ** More on [set_total] *)

Lemma snapshot_view_no_mutations t : mutations t = [] -> snapshot_view t = base t.
Proof. unfold snapshot_view, tr_view. intros ->. by destruct (snapshot_ryw t). Qed.

Lemma tr_view_no_mutations t : mutations t = [] -> tr_view t = base t.
Proof. unfold tr_view. by intros ->. Qed.

(** What [set_total] leaves on its transaction. *)
Lemma set_total_effect self tr x w t :
  let S := shard_sum self (snapshot_view t) in
  let k := shard_key (subspace self) (next_urandom 0 20 w) in
  heap w !! tr = Some t ->
  faults w 0%nat = None ->
  all_ints (shards self (snapshot_view t)) ->
  encodable (x - S) ->
  exists v,
    shard_int v = Some (x - S) /\
    the_tr tr (set_total self tr x w).2 = add_mutation (MSet k v) t /\
    heap (set_total self tr x w).2 !! tr = Some (add_mutation (MSet k v) t) /\
    faults (set_total self tr x w).2
    = faults (add self tr (x - S) (set_faults (fun i => faults w (Datatypes.S i)) w)).2.
Proof.
  intros S k Ht F0 Hi Hx. unfold set_total.
  rewrite run_bind, (get_snapshot_effect self tr w t Ht F0 Hi). fold S.
  destruct (_encode_int_decode _ Hx) as (v & Hv & Hd).
  set (w1 := set_faults (fun i => faults w (Datatypes.S i)) w).
  assert (Ht1 : heap w1 !! tr = Some t) by done.
  destruct (add_effect self tr (x - S) w1 t v Ht1 Hv) as (Hthe & _).
  change (next_urandom 0 20 w1) with (next_urandom 0 20 w) in Hthe. fold k in Hthe.
  exists v. split; [by apply shard_int_decode|]. split; [done|]. split; [|done].
  unfold the_tr in Hthe.
  destruct (heap (add self tr (x - S) w1).2 !! tr) as [t0|] eqn:E; [by rewrite <- Hthe|].
  exfalso. cbn in Hthe. apply (f_equal mutations) in Hthe. cbn in Hthe.
  by destruct (mutations t).
Qed.

(** X11.  [set_total(x)] then [get_transactional()] gives [x].  In a
    transaction without earlier writes of its own, after [set_total(x)] (its
    key not in use) [get_transactional] returns [x]. *)
Theorem get_transactional_after_set_total self tr x w t :
  let S := shard_sum self (base t) in
  let k := shard_key (subspace self) (next_urandom 0 20 w) in
  let w' := (set_total self tr x w).2 in
  heap w !! tr = Some t ->
  mutations t = [] ->
  faults w 0%nat = None ->
  all_ints (shards self (base t)) ->
  encodable (x - S) ->
  base t !! k = None ->
  faults w' 0%nat = None ->
  (get_transactional self tr w').1 = Ok x.
Proof.
  intros S k w' Ht Hm F0 Hi Hx Hfresh F0'.
  pose proof (snapshot_view_no_mutations t Hm) as Hsv.
  destruct (set_total_effect self tr x w t Ht F0) as (v & Hz & _ & Hlive & _);
    rewrite ?Hsv; try done.
  rewrite Hsv in Hz. fold S k w' in Hz, Hlive.
  rewrite (get_transactional_effect self tr w' _ Hlive F0'). cbn [fst].
  rewrite tr_view_add_mutation, (tr_view_no_mutations t Hm). cbn [apply_mutation].
  rewrite sum_loop_ints, namespace_scan_sum, Z.add_0_l.
  - rewrite shard_sum_insert by (done || apply shard_key_in_range).
    rewrite (shard_int_value v _ Hz). fold S. f_equal. lia.
  - apply namespace_scan_ints. unfold k. rewrite shards_insert_key.
    by eapply all_ints_insert.
Qed.

(** X12.  [set_total] loses updates.  Two clients run [set_total(x1)] and
    [set_total(x2)] in transactions of their own on the same database, whose
    sum is [S].  Neither read registered a conflict: both commits are accepted
    one after the other, in either order, and the sum ends up as
    [x1 + x2 - S], which is neither [x1] nor [x2] unless one of them is [S]. *)
Theorem concurrent_set_totals_add_up self tr1 tr2 x1 x2 w1 w2 d b1 b2 :
  let S := shard_sum self d in
  let k1 := shard_key (subspace self) (next_urandom 0 20 w1) in
  let k2 := shard_key (subspace self) (next_urandom 0 20 w2) in
  let t1' := the_tr tr1 (set_total self tr1 x1 w1).2 in
  let t2' := the_tr tr2 (set_total self tr2 x2 w2).2 in
  heap w1 !! tr1 = Some (mkTransaction d [] [] [] b1) ->
  heap w2 !! tr2 = Some (mkTransaction d [] [] [] b2) ->
  faults w1 0%nat = None -> faults w2 0%nat = None ->
  all_ints (shards self d) ->
  encodable (x1 - S) -> encodable (x2 - S) ->
  k1 <> k2 -> d !! k1 = None -> d !! k2 = None ->
  exists d12,
    (d1 ← commit_outcome d t1'; commit_outcome d1 t2') = Some d12 /\
    (d2 ← commit_outcome d t2'; commit_outcome d2 t1') = Some d12 /\
    shard_sum self d12 = x1 + x2 - S.
Proof.
  intros S k1 k2 t1' t2' Ht1 Ht2 F1 F2 Hi Hx1 Hx2 Hne Hf1 Hf2.
  assert (Hs1 : snapshot_view (mkTransaction d [] [] [] b1) = d)
    by (by apply snapshot_view_no_mutations).
  assert (Hs2 : snapshot_view (mkTransaction d [] [] [] b2) = d)
    by (by apply snapshot_view_no_mutations).
  destruct (set_total_effect self tr1 x1 w1 _ Ht1 F1) as (v1 & Hz1 & Hthe1 & _);
    rewrite ?Hs1; try done.
  destruct (set_total_effect self tr2 x2 w2 _ Ht2 F2) as (v2 & Hz2 & Hthe2 & _);
    rewrite ?Hs2; try done.
  rewrite Hs1 in Hz1. rewrite Hs2 in Hz2. fold S in Hz1, Hz2.
  fold k1 t1' in Hthe1. fold k2 t2' in Hthe2. rewrite Hthe1, Hthe2.
  exists (<[k2:=v2]> (<[k1:=v1]> d)).
  rewrite !commit_outcome_add_mutation, !commit_outcome_untouched.
  cbn [fmap option_fmap option_map mbind option_bind apply_mutation].
  rewrite !commit_outcome_add_mutation, !commit_outcome_untouched.
  cbn [fmap option_fmap option_map mbind option_bind apply_mutation].
  pose proof (shard_key_in_range (subspace self) (next_urandom 0 20 w1)) as Hin1.
  pose proof (shard_key_in_range (subspace self) (next_urandom 0 20 w2)) as Hin2.
  fold k1 in Hin1. fold k2 in Hin2.
  split; [done|]. split; [by rewrite insert_insert_ne|].
  assert (Hf2' : <[k1:=v1]> d !! k2 = None) by (by rewrite lookup_insert_ne).
  rewrite !shard_sum_insert by done.
  rewrite (shard_int_value v1 _ Hz1), (shard_int_value v2 _ Hz2). fold S. lia.
Qed.

(** ** Reads and conflicts *)





(** ** More on keys *)

(** X15.  Different random bytes, different keys.  The key built from a
    random identifier determines the identifier: two new shards get the same
    key only if [os.urandom] returned the same bytes twice.  Every such key
    lies strictly inside the namespace range, so that no new shard is missed
    by the range reads. *)
Theorem shard_key_injective self rid1 rid2 :
  (shard_key (subspace self) rid1 = shard_key (subspace self) rid2 -> rid1 = rid2) /\
  in_range (Subspace.range (subspace self)).1 (Subspace.range (subspace self)).2
    (shard_key (subspace self) rid1) = true.
Proof.
  split; [|apply shard_key_in_range].
  unfold shard_key. intros H%app_inv_head.
  pose proof (unpack_bytes rid1) as H1. rewrite H, unpack_bytes in H1. congruence.
Qed.

(** ** The decorated methods called on the database *)

Lemma heap_live_the_tr tr w t :
  the_tr tr w = t -> mutations t <> [] -> heap w !! tr = Some t.
Proof.
  unfold the_tr. destruct (heap w !! tr) as [t0|]; cbn; [by intros ->|].
  intros <- Hm. by destruct Hm.
Qed.

Lemma run_tr_commit_wait tr w :
  tr_commit_wait tr w
  = match faults w 0%nat with
    | Some c => (Raise (FDBError c), set_faults (fun i => faults w (S i)) w)
    | None =>
        match commit_outcome (database w) (the_tr tr w) with
        | Some d => (Ok tt, set_database d (set_faults (fun i => faults w (S i)) w))
        | None => (Raise (FDBError 1020), set_faults (fun i => faults w (S i)) w)
        end
    end.
Proof.
  unfold tr_commit_wait, store_call, act, mbind, M_bind.
  destruct (faults w 0%nat); [done|]. cbn.
  change (the_tr tr (set_faults ?f w)) with (the_tr tr w).
  by destruct (commit_outcome (database w) (the_tr tr w)).
Qed.

(** One attempt of [add] in a transaction without writes, commit included:
    it either puts the new shard into the database or leaves the database as
    it was; the transaction is still there afterwards. *)
Lemma add_attempt self tr x w t :
  heap w !! tr = Some t ->
  mutations t = [] ->
  exists r w1,
    (ret ← add self tr x; _ ← tr_commit_wait tr; mret ret) w = (r, w1) /\
    is_Some (heap w1 !! tr) /\
    match r with
    | Ok _ => exists v, shard_int v = Some x /\
                database w1 = <[shard_key (subspace self) (next_urandom 0 20 w) := v]> (database w)
    | Raise _ => database w1 = database w
    end.
Proof.
  intros Ht Hm. rewrite run_bind.
  destruct (_encode_int x) as [v|e] eqn:Hv.
  2:{ rewrite run_add, Hv. eexists _, _. split; [done|]. split; [by eexists|done]. }
  destruct (add_effect self tr x w t v Ht Hv) as (Hthe & Hdb & _ & _).
  destruct (add self tr x w) as [ra wa] eqn:Hadd. cbn [fst snd] in *.
  assert (Hlive : heap wa !! tr = Some (add_mutation (MSet (shard_key (subspace self)
                    (next_urandom 0 20 w)) v) t)).
  { apply heap_live_the_tr; [done|]. cbn. by destruct (mutations t). }
  destruct ra as [[]|e].
  2:{ eexists _, _. split; [done|]. split; [by eexists|done]. }
  rewrite run_bind, run_tr_commit_wait, Hthe, Hdb.
  destruct (faults wa 0%nat) as [c|].
  { eexists _, _. split; [done|]. split; [by eexists|done]. }
  rewrite commit_outcome_add_mutation.
  destruct (commit_outcome (database w) t) as [d|] eqn:Hc; cbn.
  - eexists _, _. split; [done|]. split; [by eexists|].
    exists v. split; [by apply _encode_int_shard_int|].
    unfold commit_outcome in Hc. destruct (conflict_free (database w) t); [|done].
    injection Hc as <-. by rewrite Hm.
  - eexists _, _. split; [done|]. split; [by eexists|done].
Qed.

Lemma run_tr_on_error_ok tr code w w' :
  tr_on_error tr code w = (Ok tt, w') ->
  database w' = database w /\
  (forall t, heap w !! tr = Some t ->
     heap w' !! tr = Some (mkTransaction (database w) [] [] [] (snapshot_ryw t))).
Proof.
  unfold tr_on_error. destruct (faults w 0%nat); [done|]. intros [= <-].
  split; [done|]. intros t Ht. cbn. by rewrite list_lookup_alter_eq, Ht.
Qed.

Lemma transactional_loop_add self rounds tr x w t w' :
  heap w !! tr = Some t ->
  mutations t = [] ->
  transactional_loop rounds (fun tr => add self tr x) tr w = (Ok (Some tt), w') ->
  exists kv, added_shard self x kv /\ database w' = <[kv.1:=kv.2]> (database w).
Proof.
  revert w t. induction rounds as [|rounds IH]; intros w t Ht Hm; [done|].
  cbn [transactional_loop].
  destruct (add_attempt self tr x w t Ht Hm) as (r & w1 & -> & [t1 Ht1] & Hr).
  destruct r as [[]|e].
  - intros [= <-]. destruct Hr as (v & Hv & Hd).
    exists (shard_key (subspace self) (next_urandom 0 20 w), v). split; [|done].
    split; [|done]. eexists. split; [|done]. apply length_next_urandom.
  - destruct e as [code| | | |]; try done.
    rewrite run_bind. destruct (tr_on_error tr code w1) as [[[]|e] w2] eqn:Hoe; [|done].
    apply run_tr_on_error_ok in Hoe as [Hdb2 Hlive2].
    intros Hrun. destruct (IH w2 _ (Hlive2 _ Ht1) eq_refl Hrun) as (kv & Hkv & Hd).
    exists kv. split; [done|]. by rewrite Hd, Hdb2, Hr.
Qed.

(** X16.  [add(db, x)] through the decorator.  Whenever the call returns,
    however many attempts it took and whatever failed on the way, the
    database holds exactly one entry more than before (or one entry
    rewritten): a shard of value [x] at a key made from twenty random bytes.
    And the call does return: when no store call fails and no pass is
    started, the first attempt succeeds, with the key drawn first. *)
Theorem transactional_add self rounds x w :
  (forall w',
     transactional rounds (fun tr => add self tr x) w = (Ok (Some tt), w') ->
     exists kv, added_shard self x kv /\ database w' = <[kv.1:=kv.2]> (database w)) /\
  (faults w 0%nat = None -> faults w 1%nat = None ->
   Qltb (random_src w 0%nat) one_tenth = false ->
   encodable x ->
   exists v,
     shard_int v = Some x /\
     (transactional (S rounds) (fun tr => add self tr x) w).1 = Ok (Some tt) /\
     database (transactional (S rounds) (fun tr => add self tr x) w).2
     = <[shard_key (subspace self) (next_urandom 0 20 w) := v]> (database w)).
Proof.
  split.
  - intros w'. unfold transactional. rewrite run_create_transaction.
    destruct (faults w 0%nat); [done|].
    intros Hrun.
    eapply (transactional_loop_add self rounds _ x _
              (mkTransaction (database w) [] [] [] false)) in Hrun;
      [exact Hrun|proj; by apply list_lookup_middle|done].
  - intros F0 F1 Hr Hx. destruct (_encode_int_decode x Hx) as (v & Hv & _).
    exists v. split; [by apply _encode_int_shard_int|].
    unfold transactional. rewrite run_create_transaction, F0.
    cbn [transactional_loop]. rewrite run_bind, run_add, Hv. cbv zeta. proj.
    rewrite Hr, run_bind, run_tr_commit_wait. proj. rewrite F1.
    unfold the_tr. proj. rewrite list_lookup_alter_eq, list_lookup_middle by done.
    cbn [fmap option_fmap option_map default id].
    rewrite commit_outcome_add_mutation, commit_outcome_untouched.
    cbn [fmap option_fmap option_map apply_mutation]. proj.
    split; reflexivity.
Qed.

(** ** The reads called on the database *)

Lemma sum_loop_Ok l total v : sum_loop l total = Ok v -> v = total + sum_values l.
Proof.
  revert total. induction l as [|[k x] l IH]; intros total; cbn [sum_loop].
  - intros [= <-]. cbn. lia.
  - destruct (_decode_int x) as [y|e] eqn:Hd; cbn; [|done].
    destruct (iadd total y) as [t'|e] eqn:Ha; cbn; [|done].
    apply iadd_ok in Ha as (z & -> & ->). intros H. apply IH in H as ->.
    unfold sum_values. cbn [foldr snd].
    rewrite (shard_int_value x z) by (by apply shard_int_decode). lia.
Qed.

(** The retry loop around a method that writes nothing and whose reads are
    still good at commit time: the database stays as it is, and a value
    returned is one the method computed from this database. *)
Lemma transactional_loop_read {A} (func : nat -> M A)
    (P : gmap bytes bytes -> A -> Prop) tr :
  (forall w b, heap w !! tr = Some (mkTransaction (database w) [] [] [] b) ->
     exists t1, database (func tr w).2 = database w /\
       heap (func tr w).2 !! tr = Some t1 /\
       commit_outcome (database w) t1 = Some (database w) /\
       forall v, (func tr w).1 = Ok v -> P (database w) v) ->
  forall rounds w b, heap w !! tr = Some (mkTransaction (database w) [] [] [] b) ->
    database (transactional_loop rounds func tr w).2 = database w /\
    forall v, (transactional_loop rounds func tr w).1 = Ok (Some v) -> P (database w) v.
Proof.
  intros Hf rounds. induction rounds as [|rounds IH]; intros w b Ht; [done|].
  assert (Hretry : forall code w1 t1, database w1 = database w -> heap w1 !! tr = Some t1 ->
    database ((_ ← tr_on_error tr code; transactional_loop rounds func tr) w1).2 = database w /\
    forall v, ((_ ← tr_on_error tr code; transactional_loop rounds func tr) w1).1 = Ok (Some v) ->
      P (database w) v).
  { intros code w1 t1 Hd1 Ht1. rewrite run_bind.
    destruct (tr_on_error tr code w1) as [[[]|e] w2] eqn:Hoe.
    - apply run_tr_on_error_ok in Hoe as [Hd2 Hl2]. specialize (Hl2 _ Ht1).
      rewrite <- Hd2 in Hl2. destruct (IH w2 _ Hl2) as [IH1 IH2].
      rewrite <- Hd1, <- Hd2. by split.
    - unfold tr_on_error in Hoe. destruct (faults w1 0%nat); [|done].
      injection Hoe as <- <-. by split. }
  cbn [transactional_loop]. rewrite run_bind.
  destruct (Hf w b Ht) as (t1 & Hd & Ht1 & Hc & HP).
  destruct (func tr w) as [[v|e] w1] eqn:E; cbn [fst snd] in *.
  - rewrite run_bind, run_tr_commit_wait.
    destruct (faults w1 0%nat) as [c|].
    + by apply (Hretry c _ t1).
    + rewrite (the_tr_live _ _ _ Ht1), Hd, Hc. cbn. split; [done|].
      intros v' [= <-]. by apply HP.
  - destruct e as [code| | | |]; try by split.
    by apply (Hretry code _ t1).
Qed.

Lemma get_snapshot_read self tr w b :
  heap w !! tr = Some (mkTransaction (database w) [] [] [] b) ->
  exists t1, database (get_snapshot self tr w).2 = database w /\
    heap (get_snapshot self tr w).2 !! tr = Some t1 /\
    commit_outcome (database w) t1 = Some (database w) /\
    forall v, (get_snapshot self tr w).1 = Ok v -> v = shard_sum self (database w).
Proof.
  intros Ht. rewrite run_get_snapshot, (the_tr_live _ _ _ Ht). cbn [fst snd].
  eexists. split; [done|]. split; [exact Ht|]. split; [done|].
  destruct (faults w 0%nat); [done|]. intros v Hv. apply sum_loop_Ok in Hv as ->.
  rewrite namespace_scan_sum, snapshot_view_no_mutations by done. cbn. lia.
Qed.

Lemma commit_outcome_read_range d r b :
  commit_outcome d (add_read_range r (mkTransaction d [] [] [] b)) = Some d.
Proof.
  unfold commit_outcome, conflict_free, add_read_range.
  cbn [read_keys read_ranges base mutations forallb app andb apply_mutations].
  by rewrite bool_decide_eq_true_2.
Qed.

Lemma get_transactional_read self tr w b :
  heap w !! tr = Some (mkTransaction (database w) [] [] [] b) ->
  exists t1, database (get_transactional self tr w).2 = database w /\
    heap (get_transactional self tr w).2 !! tr = Some t1 /\
    commit_outcome (database w) t1 = Some (database w) /\
    forall v, (get_transactional self tr w).1 = Ok v -> v = shard_sum self (database w).
Proof.
  intros Ht. rewrite run_get_transactional, (the_tr_live _ _ _ Ht).
  destruct (faults w 0%nat).
  { eexists. split; [done|]. split; [exact Ht|]. by split. }
  cbn [fst snd]. eexists. split; [done|]. split.
  { proj. by rewrite list_lookup_alter_eq, Ht. }
  split.
  { apply commit_outcome_read_range. }
  intros v Hv. apply sum_loop_Ok in Hv as ->.
  rewrite namespace_scan_sum, tr_view_no_mutations by done. cbn. lia.
Qed.

(** X17.  [get_snapshot(db)] and [get_transactional(db)] through the
    decorator.  However the call ends, and however many attempts it takes,
    the database is left as it was; a value it returns is the sum of the
    shards of that database.  And it does return it: when the three store
    calls of the first attempt go through and every shard holds an integer,
    the first attempt returns the sum. *)
Theorem transactional_reads self rounds w :
  (database (transactional rounds (get_snapshot self) w).2 = database w /\
   database (transactional rounds (get_transactional self) w).2 = database w) /\
  (forall v,
     (transactional rounds (get_snapshot self) w).1 = Ok (Some v) \/
     (transactional rounds (get_transactional self) w).1 = Ok (Some v) ->
     v = shard_sum self (database w)) /\
  (faults w 0%nat = None -> faults w 1%nat = None -> faults w 2%nat = None ->
   all_ints (shards self (database w)) ->
   (transactional (S rounds) (get_snapshot self) w).1
   = Ok (Some (shard_sum self (database w))) /\
   (transactional (S rounds) (get_transactional self) w).1
   = Ok (Some (shard_sum self (database w)))).
Proof.
  assert (Hs : forall n,
    database (transactional n (get_snapshot self) w).2 = database w /\
    forall v, (transactional n (get_snapshot self) w).1 = Ok (Some v) ->
      v = shard_sum self (database w)).
  { intros n. unfold transactional. rewrite run_create_transaction.
    destruct (faults w 0%nat); [done|].
    refine (transactional_loop_read (get_snapshot self)
              (fun d v => v = shard_sum self d) _ (get_snapshot_read self _) n
              (set_heap (heap w ++ [mkTransaction (database w) [] [] [] false])
                 (set_faults (fun i => faults w (S i)) w)) false _).
    proj. by apply list_lookup_middle. }
  assert (Hg : forall n,
    database (transactional n (get_transactional self) w).2 = database w /\
    forall v, (transactional n (get_transactional self) w).1 = Ok (Some v) ->
      v = shard_sum self (database w)).
  { intros n. unfold transactional. rewrite run_create_transaction.
    destruct (faults w 0%nat); [done|].
    refine (transactional_loop_read (get_transactional self)
              (fun d v => v = shard_sum self d) _ (get_transactional_read self _) n
              (set_heap (heap w ++ [mkTransaction (database w) [] [] [] false])
                 (set_faults (fun i => faults w (S i)) w)) false _).
    proj. by apply list_lookup_middle. }
  split; [split; [apply Hs|apply Hg]|]. split.
  { intros v [H|H]; [by apply Hs in H|by apply Hg in H]. }
  intros F0 F1 F2 Hi. split.
  - unfold transactional. rewrite run_create_transaction, F0.
    cbn [transactional_loop]. rewrite run_bind.
    erewrite get_snapshot_effect;
      [|proj; by apply list_lookup_middle|by proj|by rewrite snapshot_view_no_mutations].
    rewrite run_bind, run_tr_commit_wait. proj. rewrite F2.
    unfold the_tr. proj. rewrite list_lookup_middle by done.
    cbn [default id]. rewrite commit_outcome_untouched.
    by rewrite snapshot_view_no_mutations.
  - unfold transactional. rewrite run_create_transaction, F0.
    cbn [transactional_loop]. rewrite run_bind.
    erewrite get_transactional_effect; [|proj; by apply list_lookup_middle|by proj].
    rewrite sum_loop_ints, namespace_scan_sum, tr_view_no_mutations
      by (try apply namespace_scan_ints; by rewrite ?tr_view_no_mutations).
    rewrite run_bind, run_tr_commit_wait. proj. rewrite F2.
    unfold the_tr. proj. rewrite list_lookup_alter_eq, list_lookup_middle by done.
    cbn [fmap option_fmap option_map default id].
    by rewrite commit_outcome_read_range, Z.add_0_l.
Qed.

(** ** A thread of increments *)

Lemma transactional_add_sound self rounds x w w' :
  transactional rounds (fun tr => add self tr x) w = (Ok (Some tt), w') ->
  exists kv, added_shard self x kv /\ database w' = <[kv.1:=kv.2]> (database w).
Proof.
  unfold transactional. rewrite run_create_transaction.
  destruct (faults w 0%nat); [done|]. intros Hrun.
  eapply (transactional_loop_add self rounds _ x _
            (mkTransaction (database w) [] [] [] false)) in Hrun;
    [exact Hrun|proj; by apply list_lookup_middle|done].
Qed.

(** [add(db, x)] in a quiet store: the first attempt goes through. *)
Lemma transactional_add_run self rounds x w v :
  faults w 0%nat = None -> faults w 1%nat = None ->
  Qltb (random_src w 0%nat) one_tenth = false ->
  _encode_int x = Ok v ->
  exists w1,
    transactional (S rounds) (fun tr => add self tr x) w = (Ok (Some tt), w1) /\
    database w1 = <[shard_key (subspace self) (next_urandom 0 20 w) := v]> (database w) /\
    (forall i, faults w1 i = faults w (2 + i)%nat) /\
    (forall i, random_src w1 i = random_src w (S i)) /\
    (forall i, urandom_src w1 i = urandom_src w (20 + i)%nat).
Proof.
  intros F0 F1 Hr Hv.
  unfold transactional. rewrite run_create_transaction, F0.
  cbn [transactional_loop]. rewrite run_bind, run_add, Hv. cbv zeta. proj.
  rewrite Hr, run_bind, run_tr_commit_wait. proj. rewrite F1.
  unfold the_tr. proj. rewrite list_lookup_alter_eq, list_lookup_middle by done.
  cbn [fmap option_fmap option_map default id].
  rewrite commit_outcome_add_mutation, commit_outcome_untouched.
  cbn [fmap option_fmap option_map apply_mutation]. proj.
  eexists. split; [reflexivity|]. by repeat split.
Qed.

Lemma insert_all_cons kv news d :
  insert_all (kv :: news) d = insert_all news (<[kv.1:=kv.2]> d).
Proof. reflexivity. Qed.

(** Putting in new shards of value [x] at distinct unused keys adds [x] to
    the sum and one to the count for each of them. *)
Lemma shard_sum_insert_all self x news d :
  Forall (added_shard self x) news ->
  NoDup news.*1 ->
  Forall (fun kv => d !! kv.1 = None) news ->
  shard_sum self (insert_all news d) = shard_sum self d + x * Z.of_nat (length news) /\
  shard_count self (insert_all news d) = (shard_count self d + length news)%nat.
Proof.
  revert d. induction news as [|kv news IH]; intros d Ha Hn Hd.
  { cbn. split; lia. }
  rewrite insert_all_cons. inversion Ha as [|? ? [(rid & _ & Hk) Hv] Ha']; subst.
  rewrite fmap_cons in Hn. apply NoDup_cons in Hn as [Hnot Hn].
  inversion Hd as [|? ? Hkv Hd']; subst.
  destruct (IH (<[kv.1:=kv.2]> d) Ha' Hn) as [IH1 IH2].
  { rewrite Forall_forall in Hd'. apply Forall_forall. intros kv' Hin.
    rewrite lookup_insert_ne; [by apply Hd'|].
    intros Heq. apply Hnot. rewrite Heq. by apply list_elem_of_fmap_2. }
  rewrite IH1, IH2, shard_sum_insert, shard_count_insert, (shard_int_value _ _ Hv);
    try done; try (rewrite Hk; apply shard_key_in_range).
  cbn [length]. split; lia.
Qed.

Lemma next_urandom_shift w w1 k skip n :
  (forall i, urandom_src w1 i = urandom_src w (k + i)%nat) ->
  next_urandom skip n w1 = next_urandom (k + skip) n w.
Proof.
  intros H. unfold next_urandom. rewrite <- (fmap_add_seq k skip n).
  rewrite <- list_fmap_compose. apply list_fmap_ext. intros i j _. apply H.
Qed.

Lemma incrementer_thread_sound self rounds n w w' :
  incrementer_thread self rounds n w = (Ok (Some tt), w') ->
  exists news,
    length news = n /\ Forall (added_shard self 1) news /\
    database w' = insert_all news (database w).
Proof.
  revert w. induction n as [|n IH]; intros w.
  { intros [= <-]. by exists []. }
  cbn [incrementer_thread]. rewrite run_bind.
  destruct (transactional rounds (fun tr => add self tr 1) w) as [[[[]|]|e] w1] eqn:E;
    [|done|done].
  intros Hrun. apply transactional_add_sound in E as (kv & Hkv & Hd1).
  apply IH in Hrun as (news & Hl & Hn & Hd).
  exists (kv :: news). split; [by cbn; rewrite Hl|]. split; [by constructor|].
  by rewrite insert_all_cons, <- Hd1.
Qed.

Lemma incrementer_thread_run self rounds n w v :
  (forall i, (i < 2 * n)%nat -> faults w i = None) ->
  (forall i, (i < n)%nat -> Qltb (random_src w i) one_tenth = false) ->
  _encode_int 1 = Ok v ->
  (incrementer_thread self (S rounds) n w).1 = Ok (Some tt) /\
  database (incrementer_thread self (S rounds) n w).2
  = insert_all (map (fun i => (shard_key (subspace self) (next_urandom (20 * i) 20 w), v))
                  (seq 0 n)) (database w).
Proof.
  intros HF HR Hv. revert w HF HR. induction n as [|n IH]; intros w HF HR; [done|].
  cbn [incrementer_thread]. rewrite run_bind.
  destruct (transactional_add_run self rounds 1 w v) as (w1 & -> & Hd & Hf & Hr & Hu);
    [apply HF; lia|apply HF; lia|apply HR; lia|done|].
  destruct (IH w1) as [IH1 IH2].
  { intros i Hi. rewrite Hf. apply HF. lia. }
  { intros i Hi. rewrite Hr. apply HR. lia. }
  split; [done|]. rewrite IH2, Hd. cbn [seq map]. rewrite insert_all_cons. cbn [fst snd].
  f_equal. rewrite <- seq_shift, map_map. apply map_ext. intros i.
  f_equal. f_equal. rewrite (next_urandom_shift w w1 20) by done. f_equal. lia.
Qed.

(** X18.  [incrementer_thread(counter, db, n)] adds [n] shards of value 1.
    Whenever the thread runs to its end, whatever was retried on the way,
    the database is the one it started from with [n] entries put in, each a
    shard of value 1 at a key made from twenty random bytes (the commits of
    the coalescing passes it started are still in flight); when those keys
    are distinct and were not in use, the counter is up by [n] and holds [n]
    shards more.  And the thread does run to its end when no store call
    fails and no pass is started: the keys are then made from the first [n]
    blocks of twenty random bytes. *)
Theorem incrementer_thread_adds_n self rounds n w :
  (forall w',
     incrementer_thread self rounds n w = (Ok (Some tt), w') ->
     exists news,
       length news = n /\ Forall (added_shard self 1) news /\
       database w' = insert_all news (database w) /\
       (NoDup news.*1 -> Forall (fun kv => database w !! kv.1 = None) news ->
        shard_sum self (database w') = shard_sum self (database w) + Z.of_nat n /\
        shard_count self (database w') = (shard_count self (database w) + n)%nat)) /\
  ((forall i, (i < 2 * n)%nat -> faults w i = None) ->
   (forall i, (i < n)%nat -> Qltb (random_src w i) one_tenth = false) ->
   exists v,
     shard_int v = Some 1 /\
     (incrementer_thread self (S rounds) n w).1 = Ok (Some tt) /\
     database (incrementer_thread self (S rounds) n w).2
     = insert_all (map (fun i => (shard_key (subspace self) (next_urandom (20 * i) 20 w), v))
                     (seq 0 n)) (database w)).
Proof.
  split.
  - intros w' Hrun. apply incrementer_thread_sound in Hrun as (news & Hl & Hn & Hd).
    exists news. repeat split; try done.
    + rewrite Hd. destruct (shard_sum_insert_all self 1 news (database w)) as [-> _];
        try done. rewrite Hl. lia.
    + rewrite Hd. destruct (shard_sum_insert_all self 1 news (database w)) as [_ ->];
        try done. by rewrite Hl.
  - intros HF HR. destruct (_encode_int_decode 1) as (v & Hv & _).
    { unfold encodable. lia. }
    exists v. split; [by apply _encode_int_shard_int|].
    by apply incrementer_thread_run.
Qed.

(** ** [set_total] called on the database *)

(** One attempt of [set_total] in a transaction just opened, commit
    included. *)
Lemma set_total_attempt self tr x w b :
  heap w !! tr = Some (mkTransaction (database w) [] [] [] b) ->
  exists r w1,
    (ret ← set_total self tr x; _ ← tr_commit_wait tr; mret ret) w = (r, w1) /\
    is_Some (heap w1 !! tr) /\
    match r with
    | Ok _ => exists kv, added_shard self (x - shard_sum self (database w)) kv /\
                database w1 = <[kv.1:=kv.2]> (database w)
    | Raise _ => database w1 = database w
    end.
Proof.
  intros Ht. rewrite run_bind. unfold set_total. rewrite run_bind, run_get_snapshot.
  rewrite (the_tr_live _ _ _ Ht), snapshot_view_no_mutations by done. cbn [base].
  destruct (faults w 0%nat) as [c|].
  { eexists _, _. split; [done|]. split; [by eexists|done]. }
  destruct (sum_loop _ 0) as [value|e] eqn:Hs.
  2:{ eexists _, _. split; [done|]. split; [by eexists|done]. }
  apply sum_loop_Ok in Hs. rewrite namespace_scan_sum, Z.add_0_l in Hs. subst value.
  set (w0 := set_faults (fun i => faults w (S i)) w).
  destruct (add_attempt self tr (x - shard_sum self (database w)) w0 _ Ht eq_refl)
    as (r & w1 & Hrun & Hlive & Hr).
  rewrite run_bind in Hrun. rewrite Hrun. exists r, w1. split; [done|]. split; [done|].
  destruct r as [[]|e]; [|done]. destruct Hr as (v & Hv & Hd).
  exists (shard_key (subspace self) (next_urandom 0 20 w0), v). split; [|done].
  split; [|done]. eexists. split; [|done]. apply length_next_urandom.
Qed.

Lemma transactional_loop_set_total self rounds tr x w b w' :
  heap w !! tr = Some (mkTransaction (database w) [] [] [] b) ->
  transactional_loop rounds (fun tr => set_total self tr x) tr w = (Ok (Some tt), w') ->
  exists kv, added_shard self (x - shard_sum self (database w)) kv /\
    database w' = <[kv.1:=kv.2]> (database w).
Proof.
  revert w b. induction rounds as [|rounds IH]; intros w b Ht; [done|].
  cbn [transactional_loop].
  destruct (set_total_attempt self tr x w b Ht) as (r & w1 & -> & [t1 Ht1] & Hr).
  destruct r as [[]|e].
  - by intros [= <-].
  - destruct e as [code| | | |]; try done.
    rewrite run_bind. destruct (tr_on_error tr code w1) as [[[]|e] w2] eqn:Hoe; [|done].
    apply run_tr_on_error_ok in Hoe as [Hdb2 Hlive2]. specialize (Hlive2 _ Ht1).
    rewrite <- Hdb2 in Hlive2. intros Hrun.
    destruct (IH w2 _ Hlive2 Hrun) as (kv & Hkv & Hd).
    exists kv. by rewrite <- Hr, <- Hdb2.
Qed.

(** X19.  [set_total(db, x)] through the decorator.  Whenever the call
    returns, however many attempts it took, the database holds one entry more
    than before (or one rewritten): a shard at a key made from twenty random
    bytes whose value is [x] minus the sum of the shards of the database; with
    that key not in use before, the sum of the shards is now [x].  And the
    call does return: when the three store calls of the first attempt go
    through, no pass is started, the shards hold integers and the difference
    can be encoded, the first attempt succeeds. *)
Theorem transactional_set_total self rounds x w :
  (forall w',
     transactional rounds (fun tr => set_total self tr x) w = (Ok (Some tt), w') ->
     exists kv,
       added_shard self (x - shard_sum self (database w)) kv /\
       database w' = <[kv.1:=kv.2]> (database w) /\
       (database w !! kv.1 = None -> shard_sum self (database w') = x)) /\
  (faults w 0%nat = None -> faults w 1%nat = None -> faults w 2%nat = None ->
   Qltb (random_src w 0%nat) one_tenth = false ->
   all_ints (shards self (database w)) ->
   encodable (x - shard_sum self (database w)) ->
   (transactional (S rounds) (fun tr => set_total self tr x) w).1 = Ok (Some tt)).
Proof.
  split.
  - intros w'. unfold transactional. rewrite run_create_transaction.
    destruct (faults w 0%nat); [done|]. intros Hrun.
    eapply (transactional_loop_set_total self rounds _ x
              (set_heap (heap w ++ [mkTransaction (database w) [] [] [] false])
                 (set_faults (fun i => faults w (S i)) w)) false) in Hrun.
    2:{ proj. by apply list_lookup_middle. }
    destruct Hrun as (kv & Hkv & Hd).
    change (added_shard self (x - shard_sum self (database w)) kv) in Hkv.
    change (database w' = <[kv.1:=kv.2]> (database w)) in Hd.
    exists kv. split; [done|]. split; [done|].
    intros Hfree. destruct Hkv as [(rid & _ & Hk) Hv].
    rewrite Hd, shard_sum_insert, (shard_int_value _ _ Hv); [lia|done|].
    rewrite Hk. apply shard_key_in_range.
  - intros F0 F1 F2 Hr Hi Hx. destruct (_encode_int_decode _ Hx) as (v & Hv & _).
    unfold transactional. rewrite run_create_transaction, F0.
    cbn [transactional_loop]. rewrite run_bind. unfold set_total. rewrite run_bind.
    erewrite get_snapshot_effect;
      [|proj; by apply list_lookup_middle|by proj|by rewrite snapshot_view_no_mutations].
    rewrite snapshot_view_no_mutations by done. cbn [base].
    rewrite run_add, Hv. cbv zeta. proj. rewrite Hr.
    rewrite run_bind, run_tr_commit_wait. proj. rewrite F2.
    unfold the_tr. proj. rewrite list_lookup_alter_eq, list_lookup_middle by done.
    cbn [fmap option_fmap option_map default id].
    by rewrite commit_outcome_add_mutation, commit_outcome_untouched.
Qed.

(** ** The statements above at work on the example *)

(** A pass whose [create_transaction] fails with [transaction_too_old]. *)
Lemma coalesce_raises_FDBError_iff_witness :
  let w := example.world (1 # 4) scenario.first_fails in
  faults w 0%nat = Some 1007 /\
  _coalesce example.counter 20 w
  = (Raise (FDBError 1007), set_faults (fun i => faults w (S i)) w).
Proof.
  intros w.
  assert (H0 : faults w 0%nat = Some 1007) by reflexivity.
  split; [exact H0|].
  exact (proj2 (coalesce_raises_FDBError_iff example.counter 20 w 1007) H0).
Defined.

(** The pass over the shards -3 and 7 of the example clears two keys. *)
Lemma coalesce_clears_at_most_N_shards_witness :
  let w := example.world (1 # 4) example.no_faults in
  let t := the_tr (length (heap w)) (_coalesce example.counter 2 w).2 in
  committing (_coalesce example.counter 2 w).2 = committing w ++ [length (heap w)] /\
  2%nat <> 0%nat /\
  (length (cleared t) <= 2)%nat /\ read_keys t = cleared t.
Proof.
  intros w t.
  assert (H1 : committing (_coalesce example.counter 2 w).2
               = committing w ++ [length (heap w)]) by (vm_compute; reflexivity).
  assert (H2 : 2%nat <> 0%nat) by lia.
  split; [exact H1|]. split; [exact H2|].
  destruct (coalesce_clears_at_most_N_shards example.counter 2 w H1 H2) as (Hl & _ & Hr & _).
  split; [exact Hl|exact Hr].
Defined.



(** [add(1)] with a draw of 0.05 in a store whose next call fails. *)
Lemma add_raises_FDBError_iff_witness :
  let w := scenario.world_tr (1 # 20) scenario.first_fails in
  (encodable 1 /\ Qltb (random_src w 0%nat) one_tenth = true /\ faults w 0%nat = Some 1007) /\
  (add example.counter 0 1 w).1 = Raise (FDBError 1007).
Proof.
  intros w.
  assert (H : encodable 1 /\ Qltb (random_src w 0%nat) one_tenth = true /\
              faults w 0%nat = Some 1007).
  { split; [unfold encodable; lia|]. split; reflexivity. }
  split; [exact H|].
  exact (proj2 (add_raises_FDBError_iff example.counter 0 1 w 1007) H).
Defined.

(** [add(5)], then a commit to the database with the foreign key. *)
Lemma add_registers_no_conflict_witness :
  let w := example.world_tr (1 # 2) in
  let t := mkTransaction example.db [] [] [] false in
  let k := shard_key (subspace example.counter) (next_urandom 0 20 w) in
  heap w !! 0%nat = Some t /\
  encodable 5 /\
  exists v, shard_int v = Some 5 /\
    commit_outcome scenario.db_foreign (the_tr 0 (add example.counter 0 5 w).2)
    = (fun d' => <[k:=v]> d') <$> commit_outcome scenario.db_foreign t.
Proof.
  intros w t k.
  assert (H1 : heap w !! 0%nat = Some t) by reflexivity.
  assert (H2 : encodable 5) by (unfold encodable; lia).
  split; [exact H1|]. split; [exact H2|].
  exact (add_registers_no_conflict example.counter 0 5 w t scenario.db_foreign H1 H2).
Defined.

(** [add(5)] and [add(-2)] by two clients of the example database. *)
Lemma concurrent_adds_commute_witness :
  let w1 := example.world_tr (1 # 2) in
  let w2 := scenario.other_world_tr (1 # 2) in
  let t := mkTransaction example.db [] [] [] false in
  let k1 := shard_key (subspace example.counter) (next_urandom 0 20 w1) in
  let k2 := shard_key (subspace example.counter) (next_urandom 0 20 w2) in
  let t1' := the_tr 0 (add example.counter 0 5 w1).2 in
  let t2' := the_tr 0 (add example.counter 0 (-2) w2).2 in
  (heap w1 !! 0%nat = Some t /\ heap w2 !! 0%nat = Some t) /\
  (encodable 5 /\ encodable (-2)) /\
  (k1 <> k2 /\ example.db !! k1 = None /\ example.db !! k2 = None) /\
  exists d12,
    (d1 ← commit_outcome example.db t1'; commit_outcome d1 t2') = Some d12 /\
    (d2 ← commit_outcome example.db t2'; commit_outcome d2 t1') = Some d12 /\
    shard_sum example.counter d12 = shard_sum example.counter example.db + 5 + -2.
Proof.
  intros w1 w2 t k1 k2 t1' t2'.
  assert (H1 : heap w1 !! 0%nat = Some t) by reflexivity.
  assert (H2 : heap w2 !! 0%nat = Some t) by reflexivity.
  assert (E1 : encodable 5) by (unfold encodable; lia).
  assert (E2 : encodable (-2)) by (unfold encodable; lia).
  assert (Hk : k1 <> k2) by (apply (bool_decide_unpack _); vm_compute; exact I).
  assert (F1 : example.db !! k1 = None) by (vm_compute; reflexivity).
  assert (F2 : example.db !! k2 = None) by (vm_compute; reflexivity).
  split; [by split|]. split; [by split|]. split; [by split|].
  destruct (concurrent_adds_commute example.counter 0 0 5 (-2) w1 w2 t t example.db
              H1 H2 (conj eq_refl (conj eq_refl eq_refl))
              (conj eq_refl (conj eq_refl eq_refl)) E1 E2 Hk F1 F2)
    as (d12 & Ha & Hb & Hs & _).
  exists d12. split; [exact Ha|]. split; [exact Hb|exact Hs].
Defined.

(** [get_transactional] on the example database. *)
Lemma get_transactional_sums_shards_witness :
  let w := example.world_tr (1 # 2) in
  let t := mkTransaction example.db [] [] [] false in
  heap w !! 0%nat = Some t /\
  faults w 0%nat = None /\
  all_ints (shards example.counter (tr_view t)) /\
  (get_transactional example.counter 0 w).1 = Ok (shard_sum example.counter (tr_view t)).
Proof.
  intros w t.
  assert (H1 : heap w !! 0%nat = Some t) by reflexivity.
  assert (H2 : faults w 0%nat = None) by reflexivity.
  assert (H3 : all_ints (shards example.counter (tr_view t))).
  { apply all_ints_list. apply (bool_decide_unpack _). vm_compute. exact I. }
  split; [exact H1|]. split; [exact H2|]. split; [exact H3|].
  destruct (get_transactional_sums_shards example.counter 0 w t H1 H2 H3) as (Hr & _).
  exact Hr.
Defined.

(** [add(4)], then [get_transactional], on the example database. *)
Lemma get_transactional_after_add_witness :
  let w := example.world_tr (1 # 2) in
  let t := mkTransaction example.db [] [] [] false in
  let k := shard_key (subspace example.counter) (next_urandom 0 20 w) in
  let w' := (add example.counter 0 4 w).2 in
  heap w !! 0%nat = Some t /\
  encodable 4 /\
  tr_view t !! k = None /\
  all_ints (shards example.counter (tr_view t)) /\
  faults w' 0%nat = None /\
  (get_transactional example.counter 0 w').1
  = Ok (shard_sum example.counter (tr_view t) + 4).
Proof.
  intros w t k w'.
  assert (H1 : heap w !! 0%nat = Some t) by reflexivity.
  assert (H2 : encodable 4) by (unfold encodable; lia).
  assert (H3 : tr_view t !! k = None) by (vm_compute; reflexivity).
  assert (H4 : all_ints (shards example.counter (tr_view t))).
  { apply all_ints_list. apply (bool_decide_unpack _). vm_compute. exact I. }
  assert (H5 : faults w' 0%nat = None) by (vm_compute; reflexivity).
  split; [exact H1|]. split; [exact H2|]. split; [exact H3|]. split; [exact H4|].
  split; [exact H5|].
  exact (get_transactional_after_add example.counter 0 4 w t H1 H2 H3 H4 H5).
Defined.

(** [set_total(100)], then [get_transactional], on the example database. *)
Lemma get_transactional_after_set_total_witness :
  let w := example.world_tr (1 # 2) in
  let t := mkTransaction example.db [] [] [] false in
  let k := shard_key (subspace example.counter) (next_urandom 0 20 w) in
  let w' := (set_total example.counter 0 100 w).2 in
  heap w !! 0%nat = Some t /\
  faults w 0%nat = None /\
  all_ints (shards example.counter (base t)) /\
  encodable (100 - shard_sum example.counter (base t)) /\
  base t !! k = None /\
  faults w' 0%nat = None /\
  (get_transactional example.counter 0 w').1 = Ok 100.
Proof.
  intros w t k w'.
  assert (H1 : heap w !! 0%nat = Some t) by reflexivity.
  assert (H2 : faults w 0%nat = None) by reflexivity.
  assert (H3 : all_ints (shards example.counter (base t))).
  { apply all_ints_list. apply (bool_decide_unpack _). vm_compute. exact I. }
  assert (H4 : encodable (100 - shard_sum example.counter (base t))).
  { unfold encodable. vm_compute. split; reflexivity. }
  assert (H5 : base t !! k = None) by (vm_compute; reflexivity).
  assert (H6 : faults w' 0%nat = None) by (vm_compute; reflexivity).
  split; [exact H1|]. split; [exact H2|]. split; [exact H3|]. split; [exact H4|].
  split; [exact H5|]. split; [exact H6|].
  exact (get_transactional_after_set_total example.counter 0 100 w t
           H1 eq_refl H2 H3 H4 H5 H6).
Defined.

(** [set_total(100)] and [set_total(50)] by two clients of the example
    database, whose sum is 9: the sum ends up as 141. *)
Lemma concurrent_set_totals_add_up_witness :
  let w1 := example.world_tr (1 # 2) in
  let w2 := scenario.other_world_tr (1 # 2) in
  let t := mkTransaction example.db [] [] [] false in
  let k1 := shard_key (subspace example.counter) (next_urandom 0 20 w1) in
  let k2 := shard_key (subspace example.counter) (next_urandom 0 20 w2) in
  let t1' := the_tr 0 (set_total example.counter 0 100 w1).2 in
  let t2' := the_tr 0 (set_total example.counter 0 50 w2).2 in
  (heap w1 !! 0%nat = Some t /\ heap w2 !! 0%nat = Some t) /\
  (faults w1 0%nat = None /\ faults w2 0%nat = None) /\
  all_ints (shards example.counter example.db) /\
  (encodable (100 - shard_sum example.counter example.db) /\
   encodable (50 - shard_sum example.counter example.db)) /\
  (k1 <> k2 /\ example.db !! k1 = None /\ example.db !! k2 = None) /\
  exists d12,
    (d1 ← commit_outcome example.db t1'; commit_outcome d1 t2') = Some d12 /\
    (d2 ← commit_outcome example.db t2'; commit_outcome d2 t1') = Some d12 /\
    shard_sum example.counter d12 = 100 + 50 - shard_sum example.counter example.db.
Proof.
  intros w1 w2 t k1 k2 t1' t2'.
  assert (H1 : heap w1 !! 0%nat = Some t) by reflexivity.
  assert (H2 : heap w2 !! 0%nat = Some t) by reflexivity.
  assert (G1 : faults w1 0%nat = None) by reflexivity.
  assert (G2 : faults w2 0%nat = None) by reflexivity.
  assert (Hi : all_ints (shards example.counter example.db)).
  { apply all_ints_list. apply (bool_decide_unpack _). vm_compute. exact I. }
  assert (E1 : encodable (100 - shard_sum example.counter example.db)).
  { unfold encodable. vm_compute. split; reflexivity. }
  assert (E2 : encodable (50 - shard_sum example.counter example.db)).
  { unfold encodable. vm_compute. split; reflexivity. }
  assert (Hk : k1 <> k2) by (apply (bool_decide_unpack _); vm_compute; exact I).
  assert (F1 : example.db !! k1 = None) by (vm_compute; reflexivity).
  assert (F2 : example.db !! k2 = None) by (vm_compute; reflexivity).
  split; [by split|]. split; [by split|]. split; [exact Hi|]. split; [by split|].
  split; [by split|].
  exact (concurrent_set_totals_add_up example.counter 0 0 100 50 w1 w2 example.db
           false false H1 H2 G1 G2 Hi E1 E2 Hk F1 F2).
Defined.



(** [add(db, 6)] on the example database. *)
Lemma transactional_add_witness :
  let w := example.world (1 # 2) example.no_faults in
  (faults w 0%nat = None /\ faults w 1%nat = None) /\
  Qltb (random_src w 0%nat) one_tenth = false /\
  encodable 6 /\
  exists v, shard_int v = Some 6 /\
    (transactional 1 (fun tr => add example.counter tr 6) w).1 = Ok (Some tt) /\
    database (transactional 1 (fun tr => add example.counter tr 6) w).2
    = <[shard_key (subspace example.counter) (next_urandom 0 20 w) := v]> (database w).
Proof.
  intros w.
  assert (F0 : faults w 0%nat = None) by reflexivity.
  assert (F1 : faults w 1%nat = None) by reflexivity.
  assert (Hr : Qltb (random_src w 0%nat) one_tenth = false) by reflexivity.
  assert (Hx : encodable 6) by (unfold encodable; lia).
  split; [by split|]. split; [exact Hr|]. split; [exact Hx|].
  exact (proj2 (transactional_add example.counter 0 6 w) F0 F1 Hr Hx).
Defined.

(** [get_snapshot(db)] and [get_transactional(db)] on the example database. *)
Lemma transactional_reads_witness :
  let w := example.world (1 # 2) example.no_faults in
  (faults w 0%nat = None /\ faults w 1%nat = None /\ faults w 2%nat = None) /\
  all_ints (shards example.counter (database w)) /\
  (transactional 1 (get_snapshot example.counter) w).1
  = Ok (Some (shard_sum example.counter (database w))) /\
  (transactional 1 (get_transactional example.counter) w).1
  = Ok (Some (shard_sum example.counter (database w))).
Proof.
  intros w.
  assert (F0 : faults w 0%nat = None) by reflexivity.
  assert (F1 : faults w 1%nat = None) by reflexivity.
  assert (F2 : faults w 2%nat = None) by reflexivity.
  assert (Hi : all_ints (shards example.counter (database w))).
  { apply all_ints_list. apply (bool_decide_unpack _). vm_compute. exact I. }
  split; [by repeat split|]. split; [exact Hi|].
  exact (proj2 (proj2 (transactional_reads example.counter 0 w)) F0 F1 F2 Hi).
Defined.

(** Three increments on the example database. *)
Lemma incrementer_thread_adds_n_witness :
  let w := scenario.world_blocks in
  (forall i, (i < 2 * 3)%nat -> faults w i = None) /\
  (forall i, (i < 3)%nat -> Qltb (random_src w i) one_tenth = false) /\
  exists v, shard_int v = Some 1 /\
    (incrementer_thread example.counter 1 3 w).1 = Ok (Some tt) /\
    database (incrementer_thread example.counter 1 3 w).2
    = insert_all
        (map (fun i => (shard_key (subspace example.counter) (next_urandom (20 * i) 20 w), v))
           (seq 0 3)) (database w).
Proof.
  intros w.
  assert (HF : forall i, (i < 2 * 3)%nat -> faults w i = None) by (intros i _; reflexivity).
  assert (HR : forall i, (i < 3)%nat -> Qltb (random_src w i) one_tenth = false)
    by (intros i _; reflexivity).
  split; [exact HF|]. split; [exact HR|].
  exact (proj2 (incrementer_thread_adds_n example.counter 0 3 w) HF HR).
Defined.

(** [set_total(db, 100)] on the example database. *)
Lemma transactional_set_total_witness :
  let w := example.world (1 # 2) example.no_faults in
  (faults w 0%nat = None /\ faults w 1%nat = None /\ faults w 2%nat = None) /\
  Qltb (random_src w 0%nat) one_tenth = false /\
  all_ints (shards example.counter (database w)) /\
  encodable (100 - shard_sum example.counter (database w)) /\
  (transactional 1 (fun tr => set_total example.counter tr 100) w).1 = Ok (Some tt).
Proof.
  intros w.
  assert (F0 : faults w 0%nat = None) by reflexivity.
  assert (F1 : faults w 1%nat = None) by reflexivity.
  assert (F2 : faults w 2%nat = None) by reflexivity.
  assert (Hr : Qltb (random_src w 0%nat) one_tenth = false) by reflexivity.
  assert (Hi : all_ints (shards example.counter (database w))).
  { apply all_ints_list. apply (bool_decide_unpack _). vm_compute. exact I. }
  assert (Hx : encodable (100 - shard_sum example.counter (database w))).
  { unfold encodable. vm_compute. split; reflexivity. }
  split; [by repeat split|]. split; [exact Hr|]. split; [exact Hi|]. split; [exact Hx|].
  exact (proj2 (transactional_set_total example.counter 0 100 w) F0 F1 F2 Hr Hi Hx).
Defined.
